(** * graceful-shutdown: a shallow embedding of the process matcher and
      the terminate / wait / kill escalation of [main.rs], [processes.rs]
      and [matcher.rs].

    Modelling conventions.
    - Text ([String], [&str]) is modelled as [string] over ASCII.  For
      ASCII text the Rust [char] operations used by the program
      ([is_whitespace], the regex crate's case folding) coincide with the
      ones defined below.
    - The operating system (the [kill] syscall, the existence of
      [/proc/<pid>], the monotonic clock, [sleep], the [/proc] directory
      and the user database) is a type class [OS] over an abstract world.
    - The program's state is the world, plus three records that only
      observe the run: the syscalls issued ([st_sys]), the messages
      printed ([st_out]) and the value of the tracked [Vec<Process>] after
      each [retain] ([st_tracked]). *)

From Stdlib Require Import String Ascii List Bool ZArith NArith Lia.
Import ListNotations.
Open Scope string_scope.

(* ------------------------------------------------------------------ *)
(** ** Characters and strings *)

Definition ascii_code (c : ascii) : nat := nat_of_ascii c.

(** [char::is_whitespace] restricted to ASCII: U+0009..U+000D and U+0020. *)
Definition is_whitespace (c : ascii) : bool :=
  let n := ascii_code c in (Nat.leb 9 n && Nat.leb n 13) || Nat.eqb n 32.

Definition is_ascii_digit (c : ascii) : bool :=
  let n := ascii_code c in Nat.leb 48 n && Nat.leb n 57.

(** [char::to_ascii_lowercase], the case folding of the regex crate on ASCII. *)
Definition to_lower (c : ascii) : ascii :=
  let n := ascii_code c in
  if Nat.leb 65 n && Nat.leb n 90 then ascii_of_nat (n + 32) else c.

Definition NUL : ascii := ascii_of_nat 0.
Definition SPACE : ascii := " "%char.
Definition NEWLINE : ascii := ascii_of_nat 10.
Definition QUOTE : string := String (ascii_of_nat 34) EmptyString.

(** [str::replace("\0", " ")] *)
Fixpoint replace_nul (s : string) : string :=
  match s with
  | EmptyString => EmptyString
  | String c rest =>
      String (if Ascii.eqb c NUL then SPACE else c) (replace_nul rest)
  end.

(** [str::trim_end]: drop the longest whitespace suffix. *)
Fixpoint trim_end (s : string) : string :=
  match s with
  | EmptyString => EmptyString
  | String c rest =>
      match trim_end rest with
      | EmptyString => if is_whitespace c then EmptyString else String c EmptyString
      | r => String c r
      end
  end.

(** [processes.rs]: [parse_cmdline] *)
Definition parse_cmdline (cmdline : string) : string :=
  trim_end (replace_nul cmdline).

(* ------------------------------------------------------------------ *)
(** ** Regular expressions

    The compiled patterns of a [RegexSet].  Parsing pattern text is done by
    the regex crate and is not modelled; a pattern is given by its syntax
    tree, over the operators below (no anchors, no look-around).  [RAny] is
    [.], which does not match a newline by default. *)

Inductive regex : Type :=
| RNone
| REps
| RChar (c : ascii)
| RAny
| RCat (r1 r2 : regex)
| RAlt (r1 r2 : regex)
| RStar (r : regex).

(** The syntax tree of a pattern made of plain characters only. *)
Fixpoint literal (s : string) : regex :=
  match s with
  | EmptyString => REps
  | String c rest => RCat (RChar c) (literal rest)
  end.

Section RegexSemantics.
(** [ceq d c]: pattern character [d] accepts text character [c]. *)
Variable ceq : ascii -> ascii -> bool.

Inductive lang : regex -> list ascii -> Prop :=
| L_eps : lang REps []
| L_char d c : ceq d c = true -> lang (RChar d) [c]
| L_any c : Ascii.eqb c NEWLINE = false -> lang RAny [c]
| L_cat r1 r2 s1 s2 : lang r1 s1 -> lang r2 s2 -> lang (RCat r1 r2) (s1 ++ s2)
| L_altl r1 r2 s : lang r1 s -> lang (RAlt r1 r2) s
| L_altr r1 r2 s : lang r2 s -> lang (RAlt r1 r2) s
| L_star0 r : lang (RStar r) []
| L_starS r s1 s2 : lang r s1 -> lang (RStar r) s2 -> lang (RStar r) (s1 ++ s2).

Fixpoint nullable (r : regex) : bool :=
  match r with
  | RNone | RChar _ | RAny => false
  | REps | RStar _ => true
  | RCat r1 r2 => nullable r1 && nullable r2
  | RAlt r1 r2 => nullable r1 || nullable r2
  end.

Fixpoint deriv (c : ascii) (r : regex) : regex :=
  match r with
  | RNone | REps => RNone
  | RChar d => if ceq d c then REps else RNone
  | RAny => if Ascii.eqb c NEWLINE then RNone else REps
  | RCat r1 r2 =>
      if nullable r1 then RAlt (RCat (deriv c r1) r2) (deriv c r2)
      else RCat (deriv c r1) r2
  | RAlt r1 r2 => RAlt (deriv c r1) (deriv c r2)
  | RStar r1 => RCat (deriv c r1) (RStar r1)
  end.

(** Whole-text match. *)
Fixpoint full_match (r : regex) (s : list ascii) : bool :=
  match s with
  | [] => nullable r
  | c :: rest => full_match (deriv c r) rest
  end.

Fixpoint prefixes (s : list ascii) : list (list ascii) :=
  match s with
  | [] => [[]]
  | c :: rest => [] :: map (cons c) (prefixes rest)
  end.

Fixpoint suffixes (s : list ascii) : list (list ascii) :=
  match s with
  | [] => [[]]
  | c :: rest => s :: suffixes rest
  end.

(** [Regex::is_match]: unanchored search, a match anywhere in the text. *)
Definition search (r : regex) (s : list ascii) : bool :=
  existsb (fun suf => existsb (full_match r) (prefixes suf)) (suffixes s).
End RegexSemantics.

(** [RegexSetBuilder::case_insensitive(true)]: characters compare after case folding. *)
Definition ceq_ci (d c : ascii) : bool := Ascii.eqb (to_lower d) (to_lower c).

Definition RegexSet := list regex.

(** [RegexSet::is_match] of a set built case-insensitively. *)
Definition regex_set_is_match (set : RegexSet) (text : string) : bool :=
  existsb (fun r => search ceq_ci r (list_ascii_of_string text)) set.

(* ------------------------------------------------------------------ *)
(** ** Results, numbers and paths *)

(** Rust's [Result<A, E>]. *)
Inductive res (A E : Type) : Type :=
| Ok (a : A)
| Err (e : E).
Arguments Ok {A E} a.
Arguments Err {A E} e.

Definition map_err {A E F} (r : res A E) (f : E -> F) : res A F :=
  match r with Ok a => Ok a | Err e => Err (f e) end.

(** [Result::ok], as used by [flat_map(Result::ok)]. *)
Definition ok_list {A E} (r : res A E) : list A :=
  match r with Ok a => [a] | Err _ => [] end.

(** [Result::err], as a list. *)
Definition err_list {A E} (r : res A E) : list E :=
  match r with Ok _ => [] | Err e => [e] end.

Definition digit_char (d : N) : ascii := ascii_of_nat (48 + N.to_nat d).

Fixpoint string_of_N_aux (fuel : nat) (n : N) (acc : string) : string :=
  match fuel with
  | O => acc
  | S f =>
      let acc' := String (digit_char (n mod 10)) acc in
      if (n <? 10)%N then acc' else string_of_N_aux f (n / 10)%N acc'
  end.

(** [Display] of an integer (20 digits cover every 64-bit value). *)
Definition string_of_N (n : N) : string := string_of_N_aux 20 n EmptyString.
Definition string_of_Z (z : Z) : string :=
  if (z <? 0)%Z then "-" ++ string_of_N (Z.to_N (- z)) else string_of_N (Z.to_N z).

(** [core::num::IntErrorKind] *)
Inductive IntErrorKind := Empty | InvalidDigit | PosOverflow | NegOverflow.

Definition int_error_display (k : IntErrorKind) : string :=
  match k with
  | Empty => "cannot parse integer from empty string"
  | InvalidDigit => "invalid digit found in string"
  | PosOverflow => "number too large to fit in target type"
  | NegOverflow => "number too small to fit in target type"
  end.

Definition i32_max : Z := 2147483647.
Definition i32_min : Z := -2147483648.

(** The digit loop of [i32::from_str]: left to right, a non-digit fails with
    [InvalidDigit], leaving the [i32] range fails with an overflow. *)
Fixpoint parse_digits (neg : bool) (acc : Z) (s : string) : res Z IntErrorKind :=
  match s with
  | EmptyString => Ok acc
  | String c rest =>
      if is_ascii_digit c then
        let d := Z.of_nat (ascii_code c - 48) in
        if neg then
          let v := (acc * 10 - d)%Z in
          if (v <? i32_min)%Z then Err NegOverflow else parse_digits neg v rest
        else
          let v := (acc * 10 + d)%Z in
          if (i32_max <? v)%Z then Err PosOverflow else parse_digits neg v rest
      else Err InvalidDigit
  end.

(** [<i32 as FromStr>::from_str] *)
Definition parse_i32 (s : string) : res Z IntErrorKind :=
  match s with
  | EmptyString => Err Empty
  | String c rest =>
      if Ascii.eqb c "+"%char then
        (if String.eqb rest EmptyString then Err InvalidDigit else parse_digits false 0 rest)
      else if Ascii.eqb c "-"%char then
        (if String.eqb rest EmptyString then Err InvalidDigit else parse_digits true 0 rest)
      else parse_digits false 0 s
  end.

Fixpoint split_slash_aux (s : string) (cur : string) : list string :=
  match s with
  | EmptyString => [cur]
  | String c rest =>
      if Ascii.eqb c "/"%char then cur :: split_slash_aux rest EmptyString
      else split_slash_aux rest (cur ++ String c EmptyString)
  end.

(** [Path::file_name]: the last normal component, [None] when the path ends
    in [..] or has no normal component. *)
Definition file_name (path : string) : option string :=
  let comps := filter (fun c => negb (String.eqb c EmptyString || String.eqb c "."))
                      (split_slash_aux path EmptyString) in
  match rev comps with
  | [] => None
  | last :: _ => if String.eqb last ".." then None else Some last
  end.

(* ------------------------------------------------------------------ *)
(** ** Signals and kill errors *)

(** [nix::sys::signal::Signal], wrapped by [signal::Signal]. *)
Inductive Signal :=
| SIGHUP | SIGINT | SIGQUIT | SIGILL | SIGTRAP | SIGABRT | SIGBUS | SIGFPE
| SIGKILL | SIGUSR1 | SIGSEGV | SIGUSR2 | SIGPIPE | SIGALRM | SIGTERM
| SIGSTKFLT | SIGCHLD | SIGCONT | SIGSTOP | SIGTSTP | SIGTTIN | SIGTTOU
| SIGURG | SIGXCPU | SIGXFSZ | SIGVTALRM | SIGPROF | SIGWINCH | SIGIO
| SIGPWR | SIGSYS.

Definition Signal_eq_dec (a b : Signal) : {a = b} + {a <> b}.
Proof. decide equality. Defined.

(** [nix::errno::Errno]: the three values [send] tells apart, and every
    other value with its name and description. *)
Inductive Errno :=
| EINVAL
| EPERM
| ESRCH
| EOTHER (errname desc : string).

(** [Display for Errno]: ["{:?}: {desc}"]. *)
Definition errno_display (e : Errno) : string :=
  match e with
  | EINVAL => "EINVAL: Invalid argument"
  | EPERM => "EPERM: Operation not permitted"
  | ESRCH => "ESRCH: No such process"
  | EOTHER n d => n ++ ": " ++ d
  end.

(** [processes.rs]: [KillError] *)
Inductive KillError :=
| InvalidSignal
| NoPermission
| DoesNotExist
| UnexpectedError (message : string).

(** The error arm of [Process::send]. *)
Definition kill_error_of_errno (e : Errno) : KillError :=
  match e with
  | EINVAL => InvalidSignal
  | EPERM => NoPermission
  | ESRCH => DoesNotExist
  | e => UnexpectedError ("errno " ++ errno_display e)
  end.

(* ------------------------------------------------------------------ *)
(** ** Processes and the [/proc] directory *)

(** [processes.rs]: [Process] *)
Record Process := mkProcess {
  pid : Z;
  user_id : N;
  name : string;
  cmdline : string
}.

Definition commandline (p : Process) : string := cmdline p.

(** Failure of [File::open] or of [read_to_string] (which also fails on
    text that is not UTF-8), with the display of the I/O error. *)
Inductive ReadFailure :=
| OpenFailed (e : string)
| ReadFailed (e : string).

(** A [DirEntry] of [/proc] together with what the program reads through
    it: [file_type], [read_link(path/exe)], the contents of [path/cmdline],
    and the owner from [metadata] of the directory. *)
Record DirEntry := mkDirEntry {
  de_file_name : string;
  de_file_type_is_dir : res bool string;
  de_exe : res string string;
  de_cmdline : res string ReadFailure;
  de_st_uid : res N string
}.

Definition entry_path (e : DirEntry) : string := "/proc/" ++ de_file_name e.

Definition is_dir (e : DirEntry) : bool :=
  match de_file_type_is_dir e with Ok t => t | Err _ => false end.

Definition has_numeric_name (e : DirEntry) : bool :=
  forallb is_ascii_digit (list_ascii_of_string (de_file_name e)).

(** [read_file(&path.join("cmdline"))] *)
Definition read_file (path : string) (r : res string ReadFailure) : res string string :=
  match r with
  | Ok s => Ok s
  | Err (OpenFailed e) => Err ("Could not open file " ++ path ++ ": " ++ e)
  | Err (ReadFailed e) => Err ("Could not read file " ++ path ++ ": " ++ e)
  end.

(** [uid_of_file(&path)] *)
Definition uid_of_file (path : string) (r : res N string) : res N string :=
  map_err r (fun e => "Could not stat " ++ path ++ ": " ++ e).

(** [Process::from_entry] *)
Definition from_entry (e : DirEntry) : res Process string :=
  let path := entry_path e in
  let basename := de_file_name e in
  match map_err (parse_i32 basename)
          (fun k => "Failed to parse PID in " ++ basename ++ ": " ++ int_error_display k) with
  | Err m => Err m
  | Ok p =>
      match map_err (de_exe e)
              (fun m => "Failed to determine executable of PID " ++ string_of_Z p ++ ": " ++ m) with
      | Err m => Err m
      | Ok exe =>
          let nm := match file_name exe with Some n => n | None => exe end in
          match read_file (path ++ "/cmdline") (de_cmdline e) with
          | Err m => Err m
          | Ok raw =>
              match uid_of_file path (de_st_uid e) with
              | Err m => Err m
              | Ok uid => Ok {| pid := p; user_id := uid; name := nm; cmdline := parse_cmdline raw |}
              end
          end
      end
  end.

(** The items of [ProcessIterator]: [next] skips entries that failed to
    load and entries that are not numeric directories, and yields
    [from_entry] of every other one. *)
Fixpoint process_iterator (es : list (res DirEntry string)) : list (res Process string) :=
  match es with
  | [] => []
  | Ok e :: rest =>
      if is_dir e && has_numeric_name e then from_entry e :: process_iterator rest
      else process_iterator rest
  | Err _ :: rest => process_iterator rest
  end.

(** The items of [UserFilter]: errors pass through. *)
Fixpoint user_filter (user : N) (items : list (res Process string)) : list (res Process string) :=
  match items with
  | [] => []
  | Ok p :: rest =>
      if (user_id p =? user)%N then Ok p :: user_filter user rest else user_filter user rest
  | Err m :: rest => Err m :: user_filter user rest
  end.

(* ------------------------------------------------------------------ *)
(** ** Matcher *)

Inductive MatchMode := Basename | Commandline.

(** [matcher.rs]: [Matcher] *)
Record Matcher := mkMatcher { regex_set : RegexSet; mode : MatchMode }.

(** [Matcher::is_match] *)
Definition is_match (m : Matcher) (p : Process) : bool :=
  match mode m with
  | Basename => regex_set_is_match (regex_set m) (name p)
  | Commandline => regex_set_is_match (regex_set m) (commandline p)
  end.

(* ------------------------------------------------------------------ *)
(** ** Options *)

(** [options.rs]: [OutputMode] *)
Inductive OutputMode := Normal | Verbose | Quiet.

Definition show_normal (m : OutputMode) : bool :=
  match m with Verbose | Normal => true | Quiet => false end.

Definition show_verbose (m : OutputMode) : bool :=
  match m with Verbose => true | Normal | Quiet => false end.

(** The output mode chosen by [Options::from] from the [--dry-run],
    [--verbose] and [--quiet] flags; [None] is the [unreachable!] arm. *)
Definition output_mode_from (dry_run verbose quiet : bool) : option OutputMode :=
  match dry_run, verbose, quiet with
  | true, _, _ => Some Verbose
  | false, false, false => Some Normal
  | false, true, false => Some Verbose
  | false, false, true => Some Quiet
  | false, true, true => None
  end.

(** [main.rs]: [UserMode] *)
Inductive UserMode := Everybody | OnlyMe | Only (user : string).

Module Options.
(** [Options], as read by [main.rs].  Colors only decorate messages and
    are left out.  [wait_time] is a [Duration] in nanoseconds. *)
Record t := mk {
  dry_run : bool;
  kill : bool;
  kill_signal : Signal;
  match_mode : MatchMode;
  output_mode : OutputMode;
  terminate_signal : Signal;
  user_mode : UserMode;
  wait_time : option N
}.
End Options.

(* ------------------------------------------------------------------ *)
(** ** The operating system *)

Class OS (World : Type) := {
  (** [nix::sys::signal::kill] *)
  os_kill : World -> Z -> Signal -> res unit Errno * World;
  (** [Path::exists] *)
  os_path_exists : World -> string -> bool;
  (** [Instant::now], in nanoseconds *)
  os_now : World -> N;
  (** [std::thread::sleep], in nanoseconds *)
  os_sleep : World -> N -> World;
  (** [read_dir("/proc")]: the entries, or the display of the I/O error *)
  os_read_proc : World -> res (list (res DirEntry string)) string;
  (** [users::get_current_uid] *)
  os_current_uid : World -> N;
  (** [users::get_user_by_name(..).map(|u| u.uid())] *)
  os_user_uid_by_name : World -> string -> option N
}.

(** A syscall of the escalation engine and what it returned. *)
Inductive Syscall :=
| SysKill (target : Z) (sig : Signal) (result : res unit Errno)
| SysExists (path : string) (found : bool)
| SysSleep (nanos : N).

(** A message printed by the program. *)
Inductive Output :=
| WouldHaveSent (sig : Signal) (p : Process)
| Sending (sig : Signal) (p : Process)
| FailedToSend (sig : Signal) (p : Process) (e : KillError)
| ProcessShutDown (p : Process)
| TimeoutReached
| WarningStillAlive
| StillAlive (p : Process).

Section Engine.
Context {World : Type} `{os : OS World}.

Record St := mkSt {
  st_world : World;
  st_sys : list Syscall;
  st_out : list Output;
  st_tracked : list (list Process)
}.

Definition M (A : Type) : Type := St -> A * St.

Definition ret {A} (a : A) : M A := fun st => (a, st).
Definition bind {A B} (m : M A) (k : A -> M B) : M B :=
  fun st => let (a, st') := m st in k a st'.

Local Notation "x <- m ;; k" := (bind m (fun x => k))
  (at level 61, m at next level, right associativity).
Local Notation "m ;; k" := (bind m (fun _ => k))
  (at level 61, right associativity).

Definition emit (o : Output) : M unit :=
  fun st => (tt, mkSt (st_world st) (st_sys st) (st_out st ++ [o]) (st_tracked st)).

Definition when (b : bool) (m : M unit) : M unit := if b then m else ret tt.

Definition record_tracked (ps : list Process) : M unit :=
  fun st => (tt, mkSt (st_world st) (st_sys st) (st_out st) (st_tracked st ++ [ps])).

Definition clock : M N := fun st => (os_now (st_world st), st).

Definition sleep (d : N) : M unit :=
  fun st => (tt, mkSt (os_sleep (st_world st) d) (st_sys st ++ [SysSleep d])
                      (st_out st) (st_tracked st)).

(** [Process::send] *)
Definition send (p : Process) (sig : Signal) : M (res unit KillError) :=
  fun st =>
    let (r, w') := os_kill (st_world st) (pid p) sig in
    (match r with Ok _ => Ok tt | Err e => Err (kill_error_of_errno e) end,
     mkSt w' (st_sys st ++ [SysKill (pid p) sig r]) (st_out st) (st_tracked st)).

Definition proc_path (p : Process) : string := "/proc/" ++ string_of_Z (pid p).

(** [Process::is_alive] *)
Definition is_alive (p : Process) : M bool :=
  fun st =>
    let b := os_path_exists (st_world st) (proc_path p) in
    (b, mkSt (st_world st) (st_sys st ++ [SysExists (proc_path p) b])
             (st_out st) (st_tracked st)).

(** [Vec::retain] with a closure that carries a mutable local [s]: the
    closure runs on each element in order, the elements it answers
    [true] for are kept in order. *)
Fixpoint retain_with {A S} (f : S -> A -> M (bool * S)) (s : S) (l : list A)
  : M (list A * S) :=
  match l with
  | [] => ret ([], s)
  | x :: xs =>
      r <- f s x;;
      let (keep, s') := r in
      rest <- retain_with f s' xs;;
      let (ys, s'') := rest in
      ret (if keep then x :: ys else ys, s'')
  end.

Variable opts : Options.t.

(** [verbose_signal_message] *)
Definition verbose_signal_message (sig : Signal) (p : Process) : M unit :=
  when (show_verbose (Options.output_mode opts)) (emit (Sending sig p)).

(** [send_with_error_handling] *)
Definition send_with_error_handling (sig : Signal) (p : Process) : M bool :=
  r <- send p sig;;
  match r with
  | Ok _ => ret true
  | Err DoesNotExist => ret true
  | Err e => emit (FailedToSend sig p e);; ret false
  end.

(** The closure of the first [retain] of [real_run]; the local is [success]. *)
Definition terminate_step (success : bool) (p : Process) : M (bool * bool) :=
  verbose_signal_message (Options.terminate_signal opts) p;;
  ok <- send_with_error_handling (Options.terminate_signal opts) p;;
  if ok then ret (true, success) else ret (false, false).

Definition terminate_phase (ps : list Process) : M (list Process * bool) :=
  retain_with terminate_step true ps.

(** The closure of the [retain] in the waiting loop. *)
Definition poll_step (u : unit) (p : Process) : M (bool * unit) :=
  alive <- is_alive p;;
  when (show_verbose (Options.output_mode opts) && negb alive) (emit (ProcessShutDown p));;
  ret (alive, u).

Inductive WaitExit := AllDead | TimeUp (remaining : list Process).

Definition poll_interval : N := 100000000.

(** Each turn sleeps [poll_interval], so [wait / poll_interval + 1] turns
    exhaust any wait time on a clock that advances during [sleep]. *)
Definition wait_fuel (wait : N) : nat := S (N.to_nat (wait / poll_interval)).

(** [while start.elapsed() < wait_time { .. }] *)
Fixpoint wait_loop (wait start : N) (fuel : nat) (ps : list Process) : M WaitExit :=
  match fuel with
  | O => ret (TimeUp ps)
  | S f =>
      now <- clock;;
      if (now - start <? wait)%N then
        sleep poll_interval;;
        r <- retain_with poll_step tt ps;;
        let ps' := fst r in
        record_tracked ps';;
        match ps' with
        | [] => ret AllDead
        | _ => wait_loop wait start f ps'
        end
      else ret (TimeUp ps)
  end.

(** [for process in &processes { .. }] of the kill branch. *)
Fixpoint kill_each (ps : list Process) (success : bool) : M bool :=
  match ps with
  | [] => ret success
  | p :: rest =>
      verbose_signal_message (Options.kill_signal opts) p;;
      ok <- send_with_error_handling (Options.kill_signal opts) p;;
      kill_each rest (if ok then success else false)
  end.

Fixpoint emit_all (os : list Output) : M unit :=
  match os with [] => ret tt | o :: rest => emit o;; emit_all rest end.

(** [real_run] *)
Definition real_run (ps : list Process) : M bool :=
  r <- terminate_phase ps;;
  let (ps1, success) := r in
  record_tracked ps1;;
  match Options.wait_time opts with
  | None => ret success
  | Some wait =>
      start <- clock;;
      ex <- wait_loop wait start (wait_fuel wait) ps1;;
      match ex with
      | AllDead => ret success
      | TimeUp ps2 =>
          if Options.kill opts then
            when (show_verbose (Options.output_mode opts)) (emit TimeoutReached);;
            kill_each ps2 success
          else
            when (show_normal (Options.output_mode opts)) (emit WarningStillAlive);;
            when (show_verbose (Options.output_mode opts)) (emit_all (map StillAlive ps2));;
            ret false
      end
  end.

(** [dry_run] *)
Definition dry_run (ps : list Process) : M bool :=
  if negb (show_normal (Options.output_mode opts)) then ret true
  else emit_all (map (WouldHaveSent (Options.terminate_signal opts)) ps);; ret true.

(** The end of [run]: the selected processes are shut down. *)
Definition run_selected (ps : list Process) : M bool :=
  if Options.dry_run opts then dry_run ps else real_run ps.

(** [find_user_by_name] *)
Definition find_user_by_name (w : World) (n : string) : res N string :=
  match os_user_uid_by_name w n with
  | Some uid => Ok uid
  | None => Err ("Could not find user with name " ++ QUOTE ++ n ++ QUOTE)
  end.


(** [Process::all] and [Process::all_from_user]: the items of the iterator,
    or the error of [ProcessIterator::new]. *)
Definition process_all (w : World) : res (list (res Process string)) string :=
  match os_read_proc w with
  | Ok es => Ok (process_iterator es)
  | Err e => Err "Failed to read /proc"
  end.

Definition process_all_from_user (w : World) (user : N) : res (list (res Process string)) string :=
  match os_read_proc w with
  | Ok es => Ok (user_filter user (process_iterator es))
  | Err e => Err "Failed to read /proc"
  end.

(** [all_processes] *)
Definition all_processes (m : Matcher) (w : World) : res (list Process) string :=
  let iter :=
    match Options.user_mode opts with
    | Everybody => process_all w
    | OnlyMe => process_all_from_user w (os_current_uid w)
    | Only n =>
        match find_user_by_name w n with
        | Ok uid => process_all_from_user w uid
        | Err e => Err e
        end
    end in
  match iter with
  | Err e => Err e
  | Ok items => Ok (filter (is_match m) (flat_map ok_list items))
  end.

End Engine.

(* ------------------------------------------------------------------ *)
(** ** A concrete world, for examples *)

Module TestOS.
Record W := mkW {
  w_now : N;
  w_alive : list Z;
  w_kill : Z -> res unit Errno;
  w_proc : res (list (res DirEntry string)) string
}.

#[global] Instance os : OS W := {
  os_kill w p _ := (w_kill w p, w);
  os_path_exists w path := existsb (fun q => String.eqb ("/proc/" ++ string_of_Z q) path) (w_alive w);
  os_now := w_now;
  os_sleep w d := mkW (w_now w + d) (w_alive w) (w_kill w) (w_proc w);
  os_read_proc := w_proc;
  os_current_uid _ := 1000%N;
  os_user_uid_by_name _ n := if String.eqb n "alice" then Some 1000%N else None
}.

Definition entry (p : Z) (exe : string) (raw : string) : res DirEntry string :=
  Ok (mkDirEntry (string_of_Z p) (Ok true) (Ok exe) (Ok raw) (Ok 1000%N)).

Definition proc_of (p : Z) (nm : string) : Process :=
  mkProcess p 1000 nm nm.

Definition start (w : W) : St := mkSt w [] [] [].

Definition wait_300ms : option N := Some 300000000%N.

(** Force-kill enabled, 300 ms of waiting. *)
Definition opts_kill : Options.t :=
  Options.mk false true SIGKILL Basename Normal SIGTERM Everybody wait_300ms.

(** Force-kill disabled ([--no-kill]), 300 ms of waiting. *)
Definition opts_no_kill : Options.t :=
  Options.mk false false SIGKILL Basename Normal SIGTERM Everybody wait_300ms.

(** [--dry-run]: [Options::from] makes the output verbose. *)
Definition opts_dry : Options.t :=
  Options.mk true true SIGKILL Basename Verbose SIGTERM Everybody wait_300ms.

(** Process 7 exited before the terminate signal: [kill] fails with [ESRCH]. *)
Definition p7 : Process := proc_of 7 "foo".
Definition w_gone : W := mkW 0 [] (fun _ => Err ESRCH) (Ok []).

(** Process 1 accepts every signal and never exits. *)
Definition p1 : Process := proc_of 1 "foo".
Definition w_stubborn : W := mkW 0 [1%Z] (fun _ => Ok tt) (Ok []).

(** Process 1 may not be signalled. *)
Definition w_denied : W := mkW 0 [1%Z] (fun _ => Err EPERM) (Ok []).

(** Three processes named foo, barfoo and baz, discovered in that order. *)
Definition w_three : W :=
  mkW 0 [1; 2; 3]%Z (fun _ => Ok tt)
    (Ok [entry 1 "/usr/bin/foo" "foo"; entry 2 "/usr/bin/barfoo" "barfoo";
         entry 3 "/usr/bin/baz" "baz"]).

(** A process directory whose executable link cannot be read. *)
Definition unreadable_entry : DirEntry :=
  mkDirEntry "5" (Ok true) (Err "Permission denied (os error 13)")
    (Ok "sshd") (Ok 0%N).

(** Like [opts_kill], in quiet mode. *)
Definition opts_quiet : Options.t :=
  Options.mk false true SIGKILL Basename Quiet SIGTERM Everybody wait_300ms.

(** Like [opts_kill], without a wait time. *)
Definition opts_no_wait : Options.t :=
  Options.mk false true SIGKILL Basename Normal SIGTERM Everybody None.
End TestOS.

(* ------------------------------------------------------------------ *)
(** ** Vocabulary of the statements *)

(** No NUL character in a string. *)
Fixpoint no_nul (s : string) : bool :=
  match s with
  | EmptyString => true
  | String c rest => negb (Ascii.eqb c NUL) && no_nul rest
  end.

(** The last character of a string, if any. *)
Fixpoint last_char (s : string) : option ascii :=
  match s with
  | EmptyString => None
  | String c EmptyString => Some c
  | String _ rest => last_char rest
  end.

(** The text a [MatchMode] selects. *)
Definition match_target (m : MatchMode) (p : Process) : string :=
  match m with Basename => name p | Commandline => commandline p end.

(** The raw result of [kill] that [send_with_error_handling] accepts. *)
Definition send_ok (r : res unit Errno) : bool :=
  match r with Ok _ => true | Err ESRCH => true | Err _ => false end.

(** The [kill] syscalls of a syscall record. *)
Definition kills (d : list Syscall) : list (Z * Signal * res unit Errno) :=
  flat_map (fun s => match s with SysKill t g r => [(t, g, r)] | _ => [] end) d.

Definition kill_target (k : Z * Signal * res unit Errno) : Z * Signal :=
  let '(t, g, _) := k in (t, g).

Definition kill_result (k : Z * Signal * res unit Errno) : res unit Errno :=
  let '(_, _, r) := k in r.

(** The [kill] syscalls sending [sig] to each of [ps] in order, with results [rs]. *)
Definition kill_calls (sig : Signal) (ps : list Process) (rs : list (res unit Errno))
  : list Syscall :=
  map (fun pr => SysKill (pid (fst pr)) sig (snd pr)) (combine ps rs).

(** The processes of [ps] whose [kill] result [send_with_error_handling] accepts. *)
Definition kept (ps : list Process) (rs : list (res unit Errno)) : list Process :=
  map fst (filter (fun pr => send_ok (snd pr)) (combine ps rs)).

(** Order-preserving sublist. *)
Inductive sublist {A} : list A -> list A -> Prop :=
| sublist_nil : sublist [] []
| sublist_skip x l1 l2 : sublist l1 l2 -> sublist l1 (x :: l2)
| sublist_keep x l1 l2 : sublist l1 l2 -> sublist (x :: l1) (x :: l2).

(** Each list is an order-preserving sublist of the one before it. *)
Fixpoint shrinking {A} (ls : list (list A)) : Prop :=
  match ls with
  | l1 :: ((l2 :: _) as rest) => sublist l2 l1 /\ shrinking rest
  | _ => True
  end.

(** The candidates of [ProcessIterator]: loaded entries that are numeric directories. *)
Definition candidates (es : list (res DirEntry string)) : list DirEntry :=
  flat_map (fun r => match r with
                     | Ok e => if is_dir e && has_numeric_name e then [e] else []
                     | Err _ => []
                     end) es.

Section RunOutcome.
Context {World : Type} `{os : OS World}.
Variable opts : Options.t.

(** How the waiting loop of [real_run] ended, [None] without a wait time. *)
Definition wait_outcome (ps : list Process) (st : St) : option WaitExit :=
  let '(r, st1) := terminate_phase opts ps st in
  let '(_, st2) := record_tracked (fst r) st1 in
  match Options.wait_time opts with
  | None => None
  | Some wait =>
      Some (fst (wait_loop opts wait (os_now (st_world st2)) (wait_fuel wait) (fst r) st2))
  end.
End RunOutcome.

(* ------------------------------------------------------------------ *)
(** ** Upper case *)

(** [char::to_ascii_uppercase] *)
Definition to_upper (c : ascii) : ascii :=
  let n := ascii_code c in
  if Nat.leb 97 n && Nat.leb n 122 then ascii_of_nat (n - 32) else c.

(** [str::make_ascii_uppercase] *)
Fixpoint make_ascii_uppercase (s : string) : string :=
  match s with
  | EmptyString => EmptyString
  | String c rest => String (to_upper c) (make_ascii_uppercase rest)
  end.

(* ------------------------------------------------------------------ *)
(** ** Signal names and numbers *)

Module Sig.

(** [Signal::iterator]: nix's list of the Linux signals, in its order. *)
Definition iterator : list Signal :=
  [SIGHUP; SIGINT; SIGQUIT; SIGILL; SIGTRAP; SIGABRT; SIGBUS; SIGFPE;
   SIGKILL; SIGUSR1; SIGSEGV; SIGUSR2; SIGPIPE; SIGALRM; SIGTERM;
   SIGSTKFLT; SIGCHLD; SIGCONT; SIGSTOP; SIGTSTP; SIGTTIN; SIGTTOU;
   SIGURG; SIGXCPU; SIGXFSZ; SIGVTALRM; SIGPROF; SIGWINCH; SIGIO;
   SIGPWR; SIGSYS].

(** [Signal::basename] *)
Definition basename (s : Signal) : string :=
  match s with
  | SIGABRT => "ABRT" | SIGALRM => "ALRM" | SIGHUP => "HUP" | SIGINT => "INT"
  | SIGKILL => "KILL" | SIGQUIT => "QUIT" | SIGSTOP => "STOP" | SIGTERM => "TERM"
  | SIGUSR1 => "USR1" | SIGUSR2 => "USR2" | SIGILL => "ILL" | SIGTRAP => "TRAP"
  | SIGBUS => "BUS" | SIGFPE => "FPE" | SIGSEGV => "SEGV" | SIGPIPE => "PIPE"
  | SIGSTKFLT => "STKFLT" | SIGCHLD => "CHLD" | SIGCONT => "CONT"
  | SIGTSTP => "TSTP" | SIGTTIN => "TTIN" | SIGTTOU => "TTOU" | SIGURG => "URG"
  | SIGXCPU => "XCPU" | SIGXFSZ => "XFSZ" | SIGVTALRM => "VTALRM"
  | SIGPROF => "PROF" | SIGWINCH => "WINCH" | SIGIO => "IO" | SIGPWR => "PWR"
  | SIGSYS => "SYS"
  end.

(** [Signal::name] *)
Definition name (s : Signal) : string := "SIG" ++ basename s.

(** [Signal::number]: [self.0 as i32], the Linux signal numbers. *)
Definition number (s : Signal) : Z :=
  match s with
  | SIGHUP => 1 | SIGINT => 2 | SIGQUIT => 3 | SIGILL => 4 | SIGTRAP => 5
  | SIGABRT => 6 | SIGBUS => 7 | SIGFPE => 8 | SIGKILL => 9 | SIGUSR1 => 10
  | SIGSEGV => 11 | SIGUSR2 => 12 | SIGPIPE => 13 | SIGALRM => 14
  | SIGTERM => 15 | SIGSTKFLT => 16 | SIGCHLD => 17 | SIGCONT => 18
  | SIGSTOP => 19 | SIGTSTP => 20 | SIGTTIN => 21 | SIGTTOU => 22
  | SIGURG => 23 | SIGXCPU => 24 | SIGXFSZ => 25 | SIGVTALRM => 26
  | SIGPROF => 27 | SIGWINCH => 28 | SIGIO => 29 | SIGPWR => 30 | SIGSYS => 31
  end%Z.

(** [signal::ParseError] *)
Inductive ParseError := UnknownSignalName.

(** [<Signal as FromStr>::from_str]: the first signal of the iterator whose
    basename or name is the upper-cased text, or whose number is the text
    read as an [i32]. *)
Definition from_str (sig : string) : res Signal ParseError :=
  let upper_sig := make_ascii_uppercase sig in
  let signal_number := match parse_i32 sig with Ok n => Some n | Err _ => None end in
  match find (fun signal =>
                String.eqb (basename signal) upper_sig || String.eqb (name signal) upper_sig
                || match signal_number with
                   | Some num => Z.eqb (number signal) num
                   | None => false
                   end) iterator with
  | Some signal => Ok signal
  | None => Err UnknownSignalName
  end.

End Sig.

Definition TAB : ascii := ascii_of_nat 9.

(** [main.rs]: [list_signals], the lines it prints. *)
Definition list_signals (is_tty : bool) : list string :=
  (if is_tty then ["Currently supported signals:"] else []) ++
  map (fun s => string_of_Z (Sig.number s) ++ String TAB (Sig.basename s)) Sig.iterator ++
  (if is_tty then ["Signal names does not require the SIG prefix, and are case-insensitive."]
   else []).

(** [options.rs]: [parse_signal] *)
Definition parse_signal (sig : string) : res Signal string :=
  map_err (Sig.from_str sig)
    (fun _ => "Failed to parse " ++ QUOTE ++ sig ++ QUOTE ++ " as a signal name.").

(* ------------------------------------------------------------------ *)
(** ** Colour modes *)

(** [options.rs]: [ColorMode] *)
Inductive ColorMode := Auto | Always | Never.

(** [ColorMode::variants], the values [--color] accepts. *)
Definition color_mode_variants : list string := ["auto"; "always"; "never"].

(** [<ColorMode as FromStr>::from_str] *)
Definition color_mode_from_str (s : string) : res ColorMode string :=
  if String.eqb s "auto" then Ok Auto
  else if String.eqb s "always" then Ok Always
  else if String.eqb s "never" then Ok Never
  else Err "Not a valid color mode".

(* ------------------------------------------------------------------ *)
(** ** Pattern lines *)

(** [str::find(char)]: the byte index of the first occurrence. *)
Fixpoint find_char (c : ascii) (s : string) : option nat :=
  match s with
  | EmptyString => None
  | String d rest =>
      if Ascii.eqb d c then Some 0 else option_map S (find_char c rest)
  end.

(** [str::trim_start]: drop the longest whitespace prefix. *)
Fixpoint trim_start (s : string) : string :=
  match s with
  | EmptyString => EmptyString
  | String c rest => if is_whitespace c then trim_start rest else s
  end.

(** [str::trim] *)
Definition trim (s : string) : string := trim_end (trim_start s).

Definition HASH : ascii := "#"%char.

(** [main.rs]: [strip_comment] *)
Definition strip_comment (line : string) : string :=
  match find_char HASH line with
  | Some index => trim (substring 0 index line)
  | None => line
  end.

(** [Iterator::map_while(Result::ok)] *)
Fixpoint map_while_ok {A E} (l : list (res A E)) : list A :=
  match l with
  | Ok a :: rest => a :: map_while_ok rest
  | _ => []
  end.

(** The patterns [load_patterns] hands to [RegexSetBuilder]: the lines of
    stdin up to the first read error, each with its comment stripped, the
    empty ones left out. *)
Definition pattern_lines (lines : list (res string string)) : list string :=
  filter (fun s => negb (String.eqb s EmptyString)) (map strip_comment (map_while_ok lines)).

(* ------------------------------------------------------------------ *)
(** ** Messages of a quiet run *)

(** The [kill] a [FailedToSend] message reports. *)
Definition fail_target (m : Output) : option (Z * Signal) :=
  match m with FailedToSend sig p _ => Some (pid p, sig) | _ => None end.

(** The [kill] syscalls whose result [send_with_error_handling] rejects. *)
Definition rejected (d : list Syscall) : list (Z * Signal * res unit Errno) :=
  filter (fun k => negb (send_ok (kill_result k))) (kills d).

Section QuietTrace.
Context {World : Type} `{os : OS World}.

(** From [st] to [st'], syscalls [d] were issued and the only messages
    printed are one [FailedToSend] per rejected [kill] of [d], in order. *)
Definition quiet_trace (st st' : @St World) : Prop :=
  exists d o, st_sys st' = (st_sys st ++ d)%list /\ st_out st' = (st_out st ++ o)%list /\
    map fail_target o = map (fun k => Some (kill_target k)) (rejected d).
End QuietTrace.

(* ------------------------------------------------------------------ *)
(** ** Command lines *)

Lemma replace_nul_no_nul s : no_nul (replace_nul s) = true.
Proof.
  induction s as [|c s IH]; simpl; [reflexivity|].
  rewrite IH, andb_true_r.
  destruct (Ascii.eqb c NUL) eqn:E; [reflexivity|now rewrite E].
Qed.

Lemma replace_nul_id s : no_nul s = true -> replace_nul s = s.
Proof.
  induction s as [|c s IH]; simpl; [reflexivity|].
  intros H; apply andb_prop in H as [H1 H2].
  destruct (Ascii.eqb c NUL); [discriminate|].
  now rewrite IH.
Qed.

Lemma trim_end_no_nul s : no_nul s = true -> no_nul (trim_end s) = true.
Proof.
  induction s as [|c s IH]; simpl; [reflexivity|].
  intros H; apply andb_prop in H as [H1 H2].
  specialize (IH H2).
  destruct (trim_end s) as [|c' r] eqn:E.
  - destruct (is_whitespace c); simpl; [reflexivity|now rewrite H1].
  - simpl in *; now rewrite H1, IH.
Qed.

Lemma trim_end_idem s : trim_end (trim_end s) = trim_end s.
Proof.
  induction s as [|c s IH]; simpl; [reflexivity|].
  destruct (trim_end s) as [|c' r] eqn:E.
  - destruct (is_whitespace c) eqn:W; simpl; [reflexivity|now rewrite W].
  - change (trim_end (String c (String c' r)))
      with (match trim_end (String c' r) with
            | EmptyString => if is_whitespace c then EmptyString else String c EmptyString
            | r0 => String c r0 end).
    now rewrite IH.
Qed.

Lemma trim_end_last s :
  match last_char (trim_end s) with
  | Some c => is_whitespace c = false
  | None => True
  end.
Proof.
  induction s as [|c s IH]; simpl; [exact I|].
  destruct (trim_end s) as [|c' r] eqn:E.
  - destruct (is_whitespace c) eqn:W; simpl; [exact I|exact W].
  - exact IH.
Qed.

(** C5: [parse_cmdline] turns every NUL into one space and trims the
    trailing whitespace: its result has no NUL and does not end in
    whitespace, applying it to its own result changes nothing, and on
    ["/bin/sh\0-c\0echo hi\0"] it returns ["/bin/sh -c echo hi"]. *)
Theorem parse_cmdline_idempotent_example :
  (forall s, parse_cmdline (parse_cmdline s) = parse_cmdline s) /\
  (forall s, no_nul (parse_cmdline s) = true) /\
  (forall s, match last_char (parse_cmdline s) with
             | Some c => is_whitespace c = false
             | None => True
             end) /\
  parse_cmdline ("/bin/sh" ++ String NUL ("-c" ++ String NUL ("echo hi" ++ String NUL EmptyString)))
  = "/bin/sh -c echo hi".
Proof.
  split; [|split; [|split]].
  - intros s; unfold parse_cmdline.
    rewrite (replace_nul_id (trim_end (replace_nul s)))
      by (apply trim_end_no_nul, replace_nul_no_nul).
    apply trim_end_idem.
  - intros s; apply trim_end_no_nul, replace_nul_no_nul.
  - intros s; apply trim_end_last.
  - vm_compute; reflexivity.
Qed.

(* ------------------------------------------------------------------ *)
(** ** The regex engine *)

Section RegexProofs.
Variable ceq : ascii -> ascii -> bool.

Lemma nullable_sound r : nullable r = true -> lang ceq r [].
Proof.
  induction r; simpl; intros H; try discriminate.
  - constructor.
  - apply andb_prop in H as [H1 H2].
    apply (L_cat ceq r1 r2 [] []); auto.
  - apply orb_prop in H as [H|H]; [apply L_altl|apply L_altr]; auto.
  - constructor.
Qed.

Lemma nullable_complete r s : lang ceq r s -> s = [] -> nullable r = true.
Proof.
  induction 1; simpl; intros E; try discriminate; auto.
  - apply app_eq_nil in E as [-> ->]. rewrite IHlang1, IHlang2; auto.
  - rewrite IHlang; auto.
  - rewrite IHlang, orb_true_r; auto.
Qed.

Lemma deriv_sound r c s : lang ceq (deriv ceq c r) s -> lang ceq r (c :: s).
Proof.
  revert s; induction r; simpl; intros s H.
  - inversion H.
  - inversion H.
  - destruct (ceq c0 c) eqn:E; inversion H; subst. now constructor.
  - destruct (Ascii.eqb c NEWLINE) eqn:E; inversion H; subst. now constructor.
  - destruct (nullable r1) eqn:N.
    + inversion H; subst.
      * inversion H3; subst.
        apply (L_cat ceq r1 r2 (c :: s1) s2); auto.
      * apply (L_cat ceq r1 r2 [] (c :: s)); auto. now apply nullable_sound.
    + inversion H; subst.
      apply (L_cat ceq r1 r2 (c :: s1) s2); auto.
  - inversion H; subst; [apply L_altl|apply L_altr]; auto.
  - inversion H; subst.
    apply (L_starS ceq r (c :: s1) s2); auto.
Qed.

Lemma deriv_complete r u : lang ceq r u ->
  forall c s, u = c :: s -> lang ceq (deriv ceq c r) s.
Proof.
  induction 1; simpl; intros c0 s0 E; try discriminate.
  - inversion E; subst. rewrite H. constructor.
  - inversion E; subst. rewrite H. constructor.
  - destruct s1 as [|c1 s1]; simpl in E.
    + assert (N : nullable r1 = true) by (eapply nullable_complete; eauto).
      rewrite N. apply L_altr. auto.
    + inversion E; subst.
      destruct (nullable r1).
      * apply L_altl. constructor; auto.
      * constructor; auto.
  - apply L_altl; auto.
  - apply L_altr; auto.
  - destruct s1 as [|c1 s1]; simpl in E.
    + exact (IHlang2 c0 s0 E).
    + inversion E; subst. constructor; auto.
Qed.

Lemma full_match_correct r s : full_match ceq r s = true <-> lang ceq r s.
Proof.
  revert r; induction s as [|c s IH]; intros r; simpl.
  - split; [apply nullable_sound|intros H; eapply nullable_complete; eauto].
  - rewrite IH. split; [apply deriv_sound|intros H; eapply deriv_complete; eauto].
Qed.

Lemma in_prefixes t u : In t (prefixes u) <-> exists post, u = (t ++ post)%list.
Proof.
  revert t; induction u as [|c u IH]; intros t; simpl.
  - split.
    + intros [<-|[]]. now exists [].
    + intros [post E]. symmetry in E. apply app_eq_nil in E as [-> _]. now left.
  - split.
    + intros [<-|H].
      * now exists (c :: u).
      * apply in_map_iff in H as [t' [<- H]].
        apply IH in H as [post ->]. now exists post.
    + intros [post E]. destruct t as [|c' t]; [now left|right].
      inversion E; subst. apply in_map. apply IH. now exists post.
Qed.

Lemma in_suffixes u s : In u (suffixes s) <-> exists pre, s = (pre ++ u)%list.
Proof.
  revert u; induction s as [|c s IH]; intros u; simpl.
  - split.
    + intros [<-|[]]. now exists [].
    + intros [pre E]. symmetry in E. apply app_eq_nil in E as [_ ->]. now left.
  - split.
    + intros [<-|H]. now exists [].
      apply IH in H as [pre ->]. now exists (c :: pre).
    + intros [pre E]. destruct pre as [|c' pre]; [now left|right].
      inversion E; subst. apply IH. now exists pre.
Qed.

Lemma search_correct r s :
  search ceq r s = true <-> exists pre t post, s = (pre ++ t ++ post)%list /\ lang ceq r t.
Proof.
  unfold search. rewrite existsb_exists. split.
  - intros [suf [Hs Hm]]. apply existsb_exists in Hm as [t [Ht Hf]].
    apply in_suffixes in Hs as [pre ->]. apply in_prefixes in Ht as [post ->].
    exists pre, t, post. split; [reflexivity|]. now apply full_match_correct.
  - intros [pre [t [post [-> Hl]]]]. exists (t ++ post)%list. split.
    + apply in_suffixes. now exists pre.
    + apply existsb_exists. exists t. split.
      * apply in_prefixes. now exists post.
      * now apply full_match_correct.
Qed.
End RegexProofs.

(** C4: [Matcher::is_match] holds iff some pattern of the set matches,
    with case-insensitive character comparison ([ceq_ci]), a substring
    anywhere in the field the mode selects (the name for [Basename], the
    command line for [Commandline]); with no pattern it never holds. *)
Theorem is_match_iff_some_pattern_substring (m : Matcher) (p : Process) :
  (is_match m p = true <->
   exists r, In r (regex_set m) /\
     exists pre t post,
       list_ascii_of_string (match_target (mode m) p) = (pre ++ t ++ post)%list /\
       lang ceq_ci r t) /\
  (regex_set m = [] -> is_match m p = false).
Proof.
  assert (E : is_match m p = regex_set_is_match (regex_set m) (match_target (mode m) p))
    by (unfold is_match, match_target; now destruct (mode m)).
  rewrite E. unfold regex_set_is_match. split.
  - rewrite existsb_exists. split.
    + intros [r [Hr Hs]]. exists r. split; [exact Hr|]. now apply search_correct.
    + intros [r [Hr Hs]]. exists r. split; [exact Hr|]. now apply search_correct.
  - intros ->. reflexivity.
Qed.

(* ------------------------------------------------------------------ *)
(** ** Lists *)

Open Scope list_scope.

Lemma sublist_refl {A} (l : list A) : sublist l l.
Proof. induction l; [constructor|apply sublist_keep; auto]. Qed.

Lemma sublist_nil_l {A} (l : list A) : sublist [] l.
Proof. induction l; [constructor|apply sublist_skip; auto]. Qed.

Lemma sublist_trans {A} (l1 l2 l3 : list A) :
  sublist l1 l2 -> sublist l2 l3 -> sublist l1 l3.
Proof.
  intros H12 H23; revert l1 H12; induction H23; intros l0 H.
  - exact H.
  - apply sublist_skip; auto.
  - inversion H; subst; [apply sublist_skip|apply sublist_keep]; auto.
Qed.

Lemma sublist_kept ps rs : sublist (kept ps rs) ps.
Proof.
  unfold kept; revert rs; induction ps as [|p ps IH]; intros [|r rs]; simpl.
  - constructor.
  - constructor.
  - apply sublist_nil_l.
  - destruct (send_ok r); simpl; [apply sublist_keep|apply sublist_skip]; apply IH.
Qed.

Lemma kills_app d1 d2 : kills (d1 ++ d2) = kills d1 ++ kills d2.
Proof. unfold kills; apply flat_map_app. Qed.

Lemma kills_kill_calls sig ps rs :
  length rs = length ps ->
  kills (kill_calls sig ps rs) = map (fun pr => (pid (fst pr), sig, snd pr)) (combine ps rs).
Proof.
  unfold kills, kill_calls.
  revert rs; induction ps as [|p ps IH]; intros [|r rs] E; simpl in *; try discriminate; auto.
  rewrite IH; auto.
Qed.

Lemma map_kill_target_calls sig ps rs :
  length rs = length ps ->
  map kill_target (kills (kill_calls sig ps rs)) = map (fun p => (pid p, sig)) ps.
Proof.
  unfold kills, kill_calls.
  revert rs; induction ps as [|p ps IH]; intros [|r rs] E; simpl in *; try discriminate; auto.
  rewrite IH; auto.
Qed.

Lemma map_kill_result_calls sig ps rs :
  length rs = length ps -> map kill_result (kills (kill_calls sig ps rs)) = rs.
Proof.
  unfold kills, kill_calls.
  revert rs; induction ps as [|p ps IH]; intros [|r rs] E; simpl in *; try discriminate; auto.
  rewrite IH; auto.
Qed.

(* ------------------------------------------------------------------ *)
(** ** The engine, step by step *)

Section EngineProofs.
Context {World : Type} `{os : OS World}.
Variable opts : Options.t.

Lemma emit_all_spec l (st : @St World) :
  emit_all l st = (tt, mkSt (st_world st) (st_sys st) (st_out st ++ l) (st_tracked st)).
Proof.
  revert st; induction l as [|o l IH]; intros st; simpl.
  - rewrite app_nil_r. now destruct st.
  - unfold bind, emit. rewrite IH. simpl. now rewrite <- app_assoc.
Qed.

Lemma verbose_signal_message_spec sig p (st : @St World) :
  exists out, verbose_signal_message opts sig p st
              = (tt, mkSt (st_world st) (st_sys st) out (st_tracked st)).
Proof.
  unfold verbose_signal_message, when, emit, ret.
  destruct (show_verbose (Options.output_mode opts)).
  - exists (st_out st ++ [Sending sig p]); reflexivity.
  - exists (st_out st); destruct st; reflexivity.
Qed.

Lemma send_with_error_handling_spec sig p (st : @St World) ok st' :
  send_with_error_handling sig p st = (ok, st') ->
  exists r, os_kill (st_world st) (pid p) sig = (r, st_world st') /\ ok = send_ok r /\
    st_sys st' = st_sys st ++ [SysKill (pid p) sig r] /\ st_tracked st' = st_tracked st.
Proof.
  unfold send_with_error_handling, bind, send.
  destruct (os_kill (st_world st) (pid p) sig) as [r w'] eqn:E.
  destruct r as [u|e]; [|destruct e]; simpl; intros H; inversion H; subst; simpl;
    eexists; repeat split; eauto.
Qed.

Lemma terminate_step_spec s p (st : @St World) keep s' st' :
  terminate_step opts s p st = ((keep, s'), st') ->
  exists r, os_kill (st_world st) (pid p) (Options.terminate_signal opts) = (r, st_world st') /\
    keep = send_ok r /\ s' = s && send_ok r /\
    st_sys st' = st_sys st ++ [SysKill (pid p) (Options.terminate_signal opts) r] /\
    st_tracked st' = st_tracked st.
Proof.
  unfold terminate_step, bind.
  destruct (verbose_signal_message_spec (Options.terminate_signal opts) p st) as [out ->].
  destruct (send_with_error_handling (Options.terminate_signal opts) p _) as [ok st2] eqn:E.
  apply send_with_error_handling_spec in E as [r (Hk & Hok & Hs & Ht)]; simpl in *.
  intros H. exists r.
  destruct ok; unfold ret in H; inversion H; subst; rewrite <- Hok;
    rewrite ?andb_true_r, ?andb_false_r; auto.
Qed.

Lemma terminate_phase_spec ps : forall s (st : @St World) ps1 s1 st1,
  retain_with (terminate_step opts) s ps st = ((ps1, s1), st1) ->
  exists rs, length rs = length ps /\
    st_sys st1 = st_sys st ++ kill_calls (Options.terminate_signal opts) ps rs /\
    ps1 = kept ps rs /\ s1 = s && forallb send_ok rs /\
    st_tracked st1 = st_tracked st.
Proof.
  induction ps as [|p ps IH]; intros s st ps1 s1 st1; simpl.
  - unfold ret; intros H; inversion H; subst. exists [].
    rewrite app_nil_r, andb_true_r. auto.
  - unfold bind.
    destruct (terminate_step opts s p st) as [[keep s'] st'] eqn:E1.
    destruct (retain_with (terminate_step opts) s' ps st') as [[ys s''] st''] eqn:E2.
    unfold ret; intros H; inversion H; subst; clear H.
    apply terminate_step_spec in E1 as [r (Hk & -> & -> & Hs & Ht)].
    apply IH in E2 as [rs (Hl & Hs2 & -> & -> & Ht2)].
    exists (r :: rs). simpl. repeat split.
    + now rewrite Hl.
    + rewrite Hs2, Hs, <- app_assoc. reflexivity.
    + unfold kept; simpl. now destruct (send_ok r).
    + now rewrite andb_assoc.
    + now rewrite Ht2, Ht.
Qed.

Lemma kill_each_spec ps : forall s (st : @St World) b st',
  kill_each opts ps s st = (b, st') ->
  exists rs, length rs = length ps /\
    st_sys st' = st_sys st ++ kill_calls (Options.kill_signal opts) ps rs /\
    b = s && forallb send_ok rs /\ st_tracked st' = st_tracked st.
Proof.
  induction ps as [|p ps IH]; intros s st b st'; simpl.
  - unfold ret; intros H; inversion H; subst. exists [].
    rewrite app_nil_r, andb_true_r. auto.
  - unfold bind.
    destruct (verbose_signal_message_spec (Options.kill_signal opts) p st) as [out ->].
    destruct (send_with_error_handling (Options.kill_signal opts) p _) as [ok st2] eqn:E.
    apply send_with_error_handling_spec in E as [r (Hk & Hok & Hs & Ht)]; simpl in *.
    intros H. apply IH in H as [rs (Hl & Hs2 & -> & Ht2)].
    exists (r :: rs). simpl. repeat split.
    + now rewrite Hl.
    + rewrite Hs2, Hs, <- app_assoc. reflexivity.
    + subst ok. destruct (send_ok r); simpl; rewrite ?andb_true_r, ?andb_false_r; auto.
    + now rewrite Ht2, Ht.
Qed.

Lemma poll_step_spec u p (st : @St World) b u' st' :
  poll_step opts u p st = ((b, u'), st') ->
  b = os_path_exists (st_world st) (proc_path p) /\ st_world st' = st_world st /\
  st_sys st' = st_sys st ++ [SysExists (proc_path p) b] /\ st_tracked st' = st_tracked st.
Proof.
  unfold poll_step, bind, is_alive, when, emit, ret.
  destruct (show_verbose (Options.output_mode opts) && negb _);
    simpl; intros H; inversion H; subst; simpl; auto.
Qed.

Lemma poll_phase_spec ps : forall (st : @St World) ps' u st',
  retain_with (poll_step opts) tt ps st = ((ps', u), st') ->
  sublist ps' ps /\ st_world st' = st_world st /\
  (exists d, st_sys st' = st_sys st ++ d /\ kills d = []) /\
  st_tracked st' = st_tracked st.
Proof.
  induction ps as [|p ps IH]; intros st ps' u st'; simpl.
  - unfold ret; intros H; inversion H; subst. repeat split; try constructor.
    exists []. now rewrite app_nil_r.
  - unfold bind.
    destruct (poll_step opts tt p st) as [[keep u1] st1] eqn:E1.
    destruct u1.
    destruct (retain_with (poll_step opts) tt ps st1) as [[ys u2] st2] eqn:E2.
    unfold ret; intros H; inversion H; subst; clear H.
    apply poll_step_spec in E1 as (Hb & Hw & Hs & Ht).
    apply IH in E2 as (Hsub & Hw2 & [d (Hd & Hk)] & Ht2).
    repeat split.
    + destruct keep; [apply sublist_keep|apply sublist_skip]; exact Hsub.
    + congruence.
    + exists (SysExists (proc_path p) keep :: d). rewrite Hd, Hs, <- app_assoc.
      split; [reflexivity|]. exact Hk.
    + congruence.
Qed.

Lemma wait_loop_spec wait start fuel : forall ps (st : @St World) ex st',
  wait_loop opts wait start fuel ps st = (ex, st') ->
  exists d h, st_sys st' = st_sys st ++ d /\ kills d = [] /\
    st_tracked st' = st_tracked st ++ h /\ shrinking (ps :: h) /\
    match ex with AllDead => True | TimeUp ps2 => sublist ps2 ps end.
Proof.
  induction fuel as [|f IH]; intros ps st ex st'; simpl.
  - unfold ret; intros H; inversion H; subst. exists [], [].
    rewrite !app_nil_r. repeat split; auto. apply sublist_refl.
  - unfold bind, clock, sleep.
    destruct (os_now (st_world st) - start <? wait)%N.
    + destruct (retain_with (poll_step opts) tt ps _) as [[ps' u] st2] eqn:E.
      apply poll_phase_spec in E as (Hsub & Hw & [d1 (Hd1 & Hk1)] & Ht); simpl in *.
      unfold record_tracked.
      destruct ps' as [|q qs].
      * unfold ret; intros H; inversion H; subst; simpl.
        exists (SysSleep poll_interval :: d1), [[]].
        rewrite Hd1, Ht, <- app_assoc. repeat split; auto.
      * intros H. apply IH in H as [d2 [h2 (Hd2 & Hk2 & Ht2 & Hsh & Hex)]]; simpl in *.
        exists (SysSleep poll_interval :: d1 ++ d2), ((q :: qs) :: h2).
        rewrite Hd2, Hd1, Ht2, Ht, <- !app_assoc. repeat split.
        -- simpl. rewrite kills_app, Hk1, Hk2. reflexivity.
        -- exact Hsub.
        -- exact Hsh.
        -- destruct ex; [exact I|]. eapply sublist_trans; eauto.
    + unfold ret; intros H; inversion H; subst. exists [], [].
      rewrite !app_nil_r. repeat split; auto. apply sublist_refl.
Qed.

Lemma when_emit_spec c o (st : @St World) :
  exists out, when c (emit o) st = (tt, mkSt (st_world st) (st_sys st) out (st_tracked st)).
Proof.
  unfold when, emit, ret; destruct c; [eexists; reflexivity|].
  exists (st_out st); destruct st; reflexivity.
Qed.

Lemma when_emit_all_spec c l (st : @St World) :
  exists out, when c (emit_all l) st = (tt, mkSt (st_world st) (st_sys st) out (st_tracked st)).
Proof.
  unfold when, ret; destruct c; [rewrite emit_all_spec; eexists; reflexivity|].
  exists (st_out st); destruct st; reflexivity.
Qed.

Ltac output_steps :=
  repeat match goal with
  | |- context [when ?c (emit ?o) ?s] =>
      let out := fresh "out" in destruct (when_emit_spec c o s) as [out ->]; simpl
  | |- context [when ?c (emit_all ?l) ?s] =>
      let out := fresh "out" in destruct (when_emit_all_spec c l s) as [out ->]; simpl
  end.

Lemma real_run_trace ps (st : @St World) b st' :
  real_run opts ps st = (b, st') ->
  exists rs1 dw h kc,
    length rs1 = length ps /\
    st_sys st' = st_sys st ++ kill_calls (Options.terminate_signal opts) ps rs1 ++ dw ++ kc /\
    kills dw = [] /\
    st_tracked st' = st_tracked st ++ kept ps rs1 :: h /\
    shrinking (kept ps rs1 :: h) /\
    match wait_outcome opts ps st with
    | None => dw = [] /\ h = [] /\ kc = [] /\ b = forallb send_ok rs1
    | Some AllDead => kc = [] /\ b = forallb send_ok rs1
    | Some (TimeUp ps2) =>
        sublist ps2 (kept ps rs1) /\
        if Options.kill opts then
          exists rs2, length rs2 = length ps2 /\
            kc = kill_calls (Options.kill_signal opts) ps2 rs2 /\
            b = forallb send_ok rs1 && forallb send_ok rs2
        else kc = [] /\ b = false
    end.
Proof.
  unfold real_run, wait_outcome, terminate_phase, bind.
  generalize wait_fuel as wf; intros wf.
  destruct (retain_with (terminate_step opts) true ps st) as [[ps1 s1] st1] eqn:E.
  apply terminate_phase_spec in E as [rs1 (Hl & Hs1 & -> & -> & Ht1)].
  unfold record_tracked; simpl.
  destruct (Options.wait_time opts) as [w|] eqn:Hw.
  - unfold clock; simpl.
    match goal with
    | |- context [wait_loop opts w ?s0 (wf w) (kept ps rs1) ?st2] =>
        destruct (wait_loop opts w s0 (wf w) (kept ps rs1) st2) as [ex st3] eqn:EW
    end.
    apply wait_loop_spec in EW as [d [h (Hd & Hk & Ht & Hsh & Hex)]]; simpl in *.
    destruct ex as [|ps2]; simpl.
    + unfold ret; intros H; inversion H; subst; clear H.
      exists rs1, d, h, []. rewrite Hd, Hs1, Ht, Ht1, !app_nil_r, <- !app_assoc.
      repeat split; auto.
    + destruct (Options.kill opts).
      * output_steps.
        intros H. apply kill_each_spec in H as [rs2 (Hl2 & Hs2 & -> & Ht2)]; simpl in *.
        exists rs1, d, h, (kill_calls (Options.kill_signal opts) ps2 rs2).
        rewrite Hs2, Hd, Hs1, Ht2, Ht, Ht1, <- !app_assoc.
        repeat split; auto. exists rs2. auto.
      * output_steps.
        unfold ret; intros H; inversion H; subst; clear H; simpl.
        exists rs1, d, h, []. rewrite Hd, Hs1, Ht, Ht1, !app_nil_r, <- !app_assoc.
        repeat split; auto.
  - unfold ret; intros H; inversion H; subst; clear H.
    exists rs1, [], [], []. rewrite Hs1, Ht1, !app_nil_r.
    repeat split; auto.
Qed.
End EngineProofs.

Lemma shrinking_sublist_head {A} (h : list (list A)) : forall (a : list A),
  shrinking (a :: h) -> forall l, In l h -> sublist l a.
Proof.
  induction h as [|b h IH]; intros a Hs l Hl; [destruct Hl|].
  destruct Hs as [Hba Hs]. destruct Hl as [<-|Hl]; [exact Hba|].
  eapply sublist_trans; [apply (IH b Hs l Hl)|exact Hba].
Qed.

Lemma forallb_kill_results opts ps rs :
  length rs = length ps ->
  forallb send_ok (map kill_result (kills (kill_calls (Options.terminate_signal opts) ps rs)))
  = forallb send_ok rs.
Proof. intros E. now rewrite map_kill_result_calls. Qed.

Section Claims.
Context {World : Type} `{os : OS World}.

(** C1 (as amended): when the terminate-phase [kill] of a process fails
    with [ESRCH] ([DoesNotExist]), [retain] keeps the process and leaves
    the success flag as it was: the rest of the list is processed from
    the same flag, and the process stays tracked.  It therefore takes
    part in the waiting loop, whose polls keep it exactly while
    [/proc/<pid>] exists. *)
Theorem terminate_does_not_exist_kept (opts : Options.t) (p : Process) (ps : list Process)
    (s : bool) (st : @St World) (w' : World) :
  os_kill (st_world st) (pid p) (Options.terminate_signal opts) = (Err ESRCH, w') ->
  exists st1, st_world st1 = w' /\
    retain_with (terminate_step opts) s (p :: ps) st =
      (let '((ys, s'), st2) := retain_with (terminate_step opts) s ps st1 in
       ((p :: ys, s'), st2)) /\
    (forall u (st' : @St World),
       fst (fst (poll_step opts u p st')) = os_path_exists (st_world st') (proc_path p)).
Proof.
  intros Hk. cbn [retain_with]. unfold bind.
  destruct (terminate_step opts s p st) as [[keep s'] st1] eqn:E.
  apply terminate_step_spec in E as [r (Hr & -> & -> & _ & _)].
  rewrite Hk in Hr. injection Hr as Hr1 Hr2. subst r.
  exists st1. split; [symmetry; exact Hr2|]. split.
  - simpl. rewrite andb_true_r.
    destruct (retain_with (terminate_step opts) s ps st1) as [[ys s''] st2]; reflexivity.
  - intros u st'.
    destruct (poll_step opts u p st') as [[b u'] st''] eqn:Ep.
    apply poll_step_spec in Ep as (-> & _). reflexivity.
Qed.
End Claims.

(** Witness of C1, on a process that has already exited. *)
Lemma terminate_does_not_exist_kept_witness :
  os_kill (st_world (TestOS.start TestOS.w_gone)) (pid TestOS.p7)
    (Options.terminate_signal TestOS.opts_kill) = (Err ESRCH, TestOS.w_gone) /\
  exists st1, st_world st1 = TestOS.w_gone /\
    retain_with (terminate_step TestOS.opts_kill) true [TestOS.p7] (TestOS.start TestOS.w_gone) =
      (let '((ys, s'), st2) := retain_with (terminate_step TestOS.opts_kill) true [] st1 in
       ((TestOS.p7 :: ys, s'), st2)) /\
    (forall u (st' : @St TestOS.W),
       fst (fst (poll_step TestOS.opts_kill u TestOS.p7 st'))
       = os_path_exists (st_world st') (proc_path TestOS.p7)).
Proof.
  split; [reflexivity|].
  apply (terminate_does_not_exist_kept TestOS.opts_kill TestOS.p7 [] true
           (TestOS.start TestOS.w_gone) TestOS.w_gone).
  reflexivity.
Defined.

(** C1 fails as stated: the process whose [kill] failed with [ESRCH] is
    still tracked after the terminate phase, and the waiting loop polls it. *)
Lemma terminate_does_not_exist_still_polled :
  let '(_, st') := real_run TestOS.opts_kill [TestOS.p7] (TestOS.start TestOS.w_gone) in
  hd_error (st_tracked st') = Some [TestOS.p7] /\
  In (SysExists "/proc/7" false) (st_sys st').
Proof.
  vm_compute. split; [reflexivity|].
  repeat (first [left; reflexivity | right]).
Qed.

Section SuccessFlag.
Context {World : Type} `{os : OS World}.

(** C2 (as amended): [real_run] returns [true] iff every [kill] syscall
    of the run (terminate phase, and kill phase if there is one) succeeded
    or failed with [ESRCH], and the waiting loop did not time out with
    force-kill disabled.  When the loop times out with force-kill enabled,
    the run ends with the kill signal sent to each remaining process in
    order and nothing after it: no liveness check confirms those deaths. *)
Theorem real_run_success_iff (opts : Options.t) (ps : list Process) (st : @St World)
    (b : bool) (st' : @St World) :
  real_run opts ps st = (b, st') ->
  exists d, st_sys st' = st_sys st ++ d /\
    (b = true <->
       forallb send_ok (map kill_result (kills d)) = true /\
       (forall ps2, wait_outcome opts ps st = Some (TimeUp ps2) -> Options.kill opts = true)) /\
    (forall ps2, wait_outcome opts ps st = Some (TimeUp ps2) -> Options.kill opts = true ->
       exists pre rs2, length rs2 = length ps2 /\
         d = pre ++ kill_calls (Options.kill_signal opts) ps2 rs2).
Proof.
  intros H.
  destruct (real_run_trace opts ps st b st' H)
    as [rs1 [dw [h [kc (Hl & Hs & Hk & _ & _ & Hcase)]]]].
  exists (kill_calls (Options.terminate_signal opts) ps rs1 ++ dw ++ kc).
  split; [exact Hs|].
  rewrite !kills_app, Hk, !map_app, forallb_app, map_kill_result_calls by exact Hl.
  simpl.
  destruct (wait_outcome opts ps st) as [[|ps2]|].
  - destruct Hcase as [-> ->]. simpl. rewrite andb_true_r.
    split.
    + split; [intros E; split; [exact E|intros ps2 E2; discriminate]|intros [E _]; exact E].
    + intros ps2 E2; discriminate.
  - destruct (Options.kill opts) eqn:Kill.
    + destruct Hcase as [_ [rs2 (Hl2 & -> & ->)]].
      rewrite map_kill_result_calls by exact Hl2.
      split.
      * split; [intros E; split; [exact E|auto]|intros [E _]; exact E].
      * intros ps3 E _. injection E as <-.
        exists (kill_calls (Options.terminate_signal opts) ps rs1 ++ dw), rs2.
        split; [exact Hl2|]. now rewrite <- app_assoc.
    + destruct Hcase as [_ [-> ->]].
      split.
      * split; [discriminate|intros [_ E]; now apply (E ps2)].
      * intros ps3 _ E; discriminate.
  - destruct Hcase as (-> & _ & -> & ->). simpl. rewrite andb_true_r.
    split.
    + split; [intros E; split; [exact E|intros ps2 E2; discriminate]|intros [E _]; exact E].
    + intros ps2 E2; discriminate.
Qed.
End SuccessFlag.

(** Witness of C2, on a process that accepts the signals and never exits. *)
Lemma real_run_success_iff_witness :
  exists b st', real_run TestOS.opts_kill [TestOS.p1] (TestOS.start TestOS.w_stubborn) = (b, st') /\
  exists d, st_sys st' = st_sys (TestOS.start TestOS.w_stubborn) ++ d /\
    (b = true <->
       forallb send_ok (map kill_result (kills d)) = true /\
       (forall ps2, wait_outcome TestOS.opts_kill [TestOS.p1] (TestOS.start TestOS.w_stubborn)
                    = Some (TimeUp ps2) -> Options.kill TestOS.opts_kill = true)) /\
    (forall ps2, wait_outcome TestOS.opts_kill [TestOS.p1] (TestOS.start TestOS.w_stubborn)
                 = Some (TimeUp ps2) -> Options.kill TestOS.opts_kill = true ->
       exists pre rs2, length rs2 = length ps2 /\
         d = pre ++ kill_calls (Options.kill_signal TestOS.opts_kill) ps2 rs2).
Proof.
  destruct (real_run TestOS.opts_kill [TestOS.p1] (TestOS.start TestOS.w_stubborn))
    as [b st'] eqn:E.
  exists b, st'. split; [reflexivity|].
  exact (real_run_success_iff TestOS.opts_kill [TestOS.p1] (TestOS.start TestOS.w_stubborn) b st' E).
Defined.

(** C2 fails as stated: with a wait time and force-kill, a process that
    never exits is killed after the timeout and the run reports success,
    although no liveness check ever saw it gone. *)
Lemma real_run_success_without_confirmed_death :
  let '(b, st') := real_run TestOS.opts_kill [TestOS.p1] (TestOS.start TestOS.w_stubborn) in
  b = true /\
  forallb (fun s => match s with SysExists _ found => found | _ => true end) (st_sys st') = true /\
  os_path_exists (st_world st') (proc_path TestOS.p1) = true.
Proof. vm_compute. repeat split. Qed.

(* ------------------------------------------------------------------ *)
(** ** Enumeration *)

Lemma process_iterator_candidates es : process_iterator es = map from_entry (candidates es).
Proof.
  induction es as [|[e|m] es IH]; simpl; auto.
  destruct (is_dir e && has_numeric_name e); simpl; congruence.
Qed.

Lemma ok_list_user_filter u items :
  flat_map ok_list (user_filter u items)
  = filter (fun p => (user_id p =? u)%N) (flat_map ok_list items).
Proof.
  induction items as [|[p|m] items IH]; simpl; auto.
  destruct (user_id p =? u)%N; simpl; congruence.
Qed.

Lemma ok_list_map_from_entry cs :
  flat_map ok_list (map from_entry cs) = flat_map (fun e => ok_list (from_entry e)) cs.
Proof. induction cs as [|c cs IH]; simpl; congruence. Qed.

Lemma filter_true {A} (l : list A) : filter (fun _ => true) l = l.
Proof. induction l; simpl; congruence. Qed.

Section Enumeration.
Context {World : Type} `{os : OS World}.

(** C3 (as amended): [ProcessIterator] skips the entries that failed to
    load and those that are not numeric directories, and yields
    [from_entry] of every other entry, an [Err] item when it fails to
    resolve; [all_processes] drops those [Err] items ([flat_map(Result::ok)]),
    so its list holds exactly the resolved processes that pass the user
    filter of the selected mode (none for everybody, the current uid for
    [--mine], the named user's uid for [--user]) and the matcher, in
    discovery order.  It fails only when
    [/proc] cannot be read or the user name given is unknown. *)
Theorem all_processes_only_resolved (opts : Options.t) (m : Matcher) (w : World) :
  (forall es, process_iterator es = map from_entry (candidates es)) /\
  (forall ps, all_processes opts m w = Ok ps ->
     exists es uid, os_read_proc w = Ok es /\
       match Options.user_mode opts with
       | Everybody => uid = None
       | OnlyMe => uid = Some (os_current_uid w)
       | Only n => exists u, os_user_uid_by_name w n = Some u /\ uid = Some u
       end /\
       ps = filter (is_match m)
              (filter (fun p => match uid with None => true | Some u => (user_id p =? u)%N end)
                 (flat_map (fun e => ok_list (from_entry e)) (candidates es)))) /\
  (forall msg, all_processes opts m w = Err msg ->
     (exists e, os_read_proc w = Err e) \/
     (exists n, Options.user_mode opts = Only n /\ os_user_uid_by_name w n = None)).
Proof.
  split; [exact process_iterator_candidates|split].
  - intros ps. unfold all_processes, process_all, process_all_from_user, find_user_by_name.
    destruct (Options.user_mode opts) as [| |n].
    + destruct (os_read_proc w) as [es|e]; intros H; inversion H; subst.
      exists es, None. split; [reflexivity|]. split; [reflexivity|].
      now rewrite filter_true, process_iterator_candidates, ok_list_map_from_entry.
    + destruct (os_read_proc w) as [es|e]; intros H; inversion H; subst.
      exists es, (Some (os_current_uid w)). split; [reflexivity|]. split; [reflexivity|].
      now rewrite ok_list_user_filter, process_iterator_candidates, ok_list_map_from_entry.
    + destruct (os_user_uid_by_name w n) as [u|]; [|intros H; discriminate].
      destruct (os_read_proc w) as [es|e]; intros H; inversion H; subst.
      exists es, (Some u). split; [reflexivity|]. split; [eauto|].
      now rewrite ok_list_user_filter, process_iterator_candidates, ok_list_map_from_entry.
  - intros msg. unfold all_processes, process_all, process_all_from_user, find_user_by_name.
    destruct (Options.user_mode opts) as [| |n].
    + destruct (os_read_proc w) as [es|e]; intros H; [discriminate|left; eauto].
    + destruct (os_read_proc w) as [es|e]; intros H; [discriminate|left; eauto].
    + destruct (os_user_uid_by_name w n) as [u|] eqn:U; [|right; eauto].
      destruct (os_read_proc w) as [es|e]; intros H; [discriminate|left; eauto].
Qed.
End Enumeration.

(** Witness of C3, on the three-process world. *)
Lemma all_processes_only_resolved_witness :
  all_processes TestOS.opts_kill (mkMatcher [literal "foo"] Basename) TestOS.w_three
    = Ok [TestOS.proc_of 1 "foo"; TestOS.proc_of 2 "barfoo"] /\
  exists es uid, os_read_proc TestOS.w_three = Ok es /\ uid = None /\
    [TestOS.proc_of 1 "foo"; TestOS.proc_of 2 "barfoo"]
    = filter (is_match (mkMatcher [literal "foo"] Basename))
        (filter (fun p => match uid with None => true | Some u => (user_id p =? u)%N end)
           (flat_map (fun e => ok_list (from_entry e)) (candidates es))).
Proof.
  assert (E : all_processes TestOS.opts_kill (mkMatcher [literal "foo"] Basename) TestOS.w_three
              = Ok [TestOS.proc_of 1 "foo"; TestOS.proc_of 2 "barfoo"]) by (vm_compute; reflexivity).
  split; [exact E|].
  exact (proj1 (proj2 (all_processes_only_resolved TestOS.opts_kill
                         (mkMatcher [literal "foo"] Basename) TestOS.w_three)) _ E).
Defined.

(** C3 fails as stated: a process directory whose executable link cannot
    be read comes out of [ProcessIterator] as an [Err] item. *)
Lemma process_iterator_yields_error :
  match process_iterator [Ok TestOS.unreadable_entry] with
  | [Err _] => True
  | _ => False
  end.
Proof. vm_compute. exact I. Qed.

(* ------------------------------------------------------------------ *)
(** ** Send errors, dry run, timeouts, ordering, tracked set *)

Section Escalation.
Context {World : Type} `{os : OS World}.

(** C6: [Process::send] maps the [kill] outcome to [Ok], [InvalidSignal]
    (EINVAL), [NoPermission] (EPERM), [DoesNotExist] (ESRCH) and
    [UnexpectedError] with the message ["errno " ++ errno] (any other
    errno).  A failure other than [DoesNotExist] is reported, drops the
    process from the tracked set in the terminate phase and sets the
    success flag to false, and the phase goes on with the remaining
    processes; in the kill phase it sets the flag to false and the loop
    goes on likewise.  Once false, the flag stays false to the end of
    either phase. *)
Theorem send_errors_abandon_and_continue :
  (forall e, kill_error_of_errno e = InvalidSignal <-> e = EINVAL) /\
  (forall e, kill_error_of_errno e = NoPermission <-> e = EPERM) /\
  (forall e, kill_error_of_errno e = DoesNotExist <-> e = ESRCH) /\
  (forall e msg, kill_error_of_errno e = UnexpectedError msg <->
     exists n dsc, e = EOTHER n dsc /\ msg = String.append "errno " (errno_display e)) /\
  (forall (p : Process) sig (st : @St World),
     fst (send p sig st) =
     match fst (os_kill (st_world st) (pid p) sig) with
     | Ok _ => Ok tt
     | Err e => Err (kill_error_of_errno e)
     end) /\
  (forall opts p ps s (st : @St World) e w',
     os_kill (st_world st) (pid p) (Options.terminate_signal opts) = (Err e, w') -> e <> ESRCH ->
     exists st1, st_world st1 = w' /\
       In (FailedToSend (Options.terminate_signal opts) p (kill_error_of_errno e)) (st_out st1) /\
       retain_with (terminate_step opts) s (p :: ps) st =
       retain_with (terminate_step opts) false ps st1) /\
  (forall opts p ps s (st : @St World) e w',
     os_kill (st_world st) (pid p) (Options.kill_signal opts) = (Err e, w') -> e <> ESRCH ->
     exists st1, st_world st1 = w' /\
       In (FailedToSend (Options.kill_signal opts) p (kill_error_of_errno e)) (st_out st1) /\
       kill_each opts (p :: ps) s st = kill_each opts ps false st1) /\
  (forall opts ps (st : @St World) ps1 s1 st1,
     retain_with (terminate_step opts) false ps st = ((ps1, s1), st1) -> s1 = false) /\
  (forall opts ps (st : @St World) b st1,
     kill_each opts ps false st = (b, st1) -> b = false).
Proof.
  split; [intros []; simpl; split; congruence|].
  split; [intros []; simpl; split; congruence|].
  split; [intros []; simpl; split; congruence|].
  split.
  { intros e msg; destruct e as [| | |n dsc]; simpl; split;
      try discriminate; try (intros [n' [d' [E _]]]; discriminate).
    - intros E; injection E as <-; eauto.
    - intros [n' [d' [_ ->]]]; reflexivity. }
  split.
  { intros p sig st; unfold send.
    destruct (os_kill (st_world st) (pid p) sig) as [r w']; reflexivity. }
  split; [|split; [|split]].
  - intros opts p ps s st e w' Hk He.
    cbn [retain_with]; unfold bind, terminate_step, bind.
    destruct (verbose_signal_message_spec opts (Options.terminate_signal opts) p st) as [out ->].
    unfold send_with_error_handling, bind, send; simpl. rewrite Hk.
    destruct e as [| | |n dsc]; [| |congruence|]; simpl; unfold ret;
      match goal with
      | |- context [retain_with ?f false ps ?s1] =>
          exists s1; split; [reflexivity|split; [apply in_or_app; right; left; reflexivity|]];
          destruct (retain_with f false ps s1) as [[ys s''] st2]; reflexivity
      end.
  - intros opts p ps s st e w' Hk He.
    cbn [kill_each]; unfold bind.
    destruct (verbose_signal_message_spec opts (Options.kill_signal opts) p st) as [out ->].
    unfold send_with_error_handling, bind, send; simpl. rewrite Hk.
    destruct e as [| | |n dsc]; [| |congruence|]; simpl; unfold ret;
      match goal with
      | |- context [kill_each ?o ps false ?s1] =>
          exists s1; split; [reflexivity|split; [apply in_or_app; right; left; reflexivity|]];
          reflexivity
      end.
  - intros opts ps st ps1 s1 st1 H.
    apply terminate_phase_spec in H as [rs (_ & _ & _ & -> & _)]; reflexivity.
  - intros opts ps st b st1 H.
    apply kill_each_spec in H as [rs (_ & _ & -> & _)]; reflexivity.
Qed.
End Escalation.

(** Witness of C6, on a process that may not be signalled: the terminate
    phase reports the failure and drops the process. *)
Lemma send_errors_abandon_and_continue_witness :
  kill_error_of_errno EPERM = NoPermission /\
  exists st1, st_world st1 = TestOS.w_denied /\
    In (FailedToSend (Options.terminate_signal TestOS.opts_kill) TestOS.p1 NoPermission)
       (st_out st1) /\
    retain_with (terminate_step TestOS.opts_kill) true [TestOS.p1] (TestOS.start TestOS.w_denied) =
      retain_with (terminate_step TestOS.opts_kill) false [] st1.
Proof.
  split.
  - apply (proj2 (proj1 (proj2 (@send_errors_abandon_and_continue TestOS.W _)) EPERM)).
    reflexivity.
  - apply (proj1 (proj2 (proj2 (proj2 (proj2 (proj2 (@send_errors_abandon_and_continue TestOS.W _))))))
             TestOS.opts_kill TestOS.p1 [] true (TestOS.start TestOS.w_denied) EPERM TestOS.w_denied);
      [reflexivity|discriminate].
Defined.

(** Witness of C4: a matcher with no pattern, on process 1. *)
Lemma is_match_iff_some_pattern_substring_witness :
  regex_set (mkMatcher [] Basename) = [] /\ is_match (mkMatcher [] Basename) TestOS.p1 = false.
Proof.
  split; [reflexivity|].
  apply (proj2 (is_match_iff_some_pattern_substring (mkMatcher [] Basename) TestOS.p1)).
  reflexivity.
Defined.

Section DryRun.
Context {World : Type} `{os : OS World}.

(** C7: with [dry_run] set, [run] ends in [dry_run]: it returns success,
    issues no syscall (no [kill], no liveness check, no sleep), leaves the
    world and the tracked set untouched, so none of the signalling,
    waiting or force-kill phases runs.  As [Options::from] makes the
    output verbose under [--dry-run], every selected process is reported,
    in order, as one the terminate signal would have been sent to. *)
Theorem dry_run_sends_nothing opts ps (st : @St World) :
  Options.dry_run opts = true ->
  (exists out, run_selected opts ps st = (true, mkSt (st_world st) (st_sys st) out (st_tracked st))) /\
  (forall v q, output_mode_from true v q = Some (Options.output_mode opts) ->
     run_selected opts ps st =
       (true, mkSt (st_world st) (st_sys st)
                (st_out st ++ map (WouldHaveSent (Options.terminate_signal opts)) ps)
                (st_tracked st))).
Proof.
  intros Hd. unfold run_selected, dry_run. rewrite Hd. split.
  - destruct (negb (show_normal (Options.output_mode opts))).
    + exists (st_out st). unfold ret. now destruct st.
    + unfold bind. rewrite emit_all_spec. eexists; reflexivity.
  - intros v q Hm. simpl in Hm. injection Hm as <-. simpl.
    unfold bind. rewrite emit_all_spec. reflexivity.
Qed.
End DryRun.

(** Witness of C7, with [--dry-run] on one process. *)
Lemma dry_run_sends_nothing_witness :
  run_selected TestOS.opts_dry [TestOS.p1] (TestOS.start TestOS.w_stubborn) =
    (true, mkSt TestOS.w_stubborn [] [WouldHaveSent SIGTERM TestOS.p1] []).
Proof.
  apply (proj2 (dry_run_sends_nothing TestOS.opts_dry [TestOS.p1] (TestOS.start TestOS.w_stubborn)
                  eq_refl) false false).
  reflexivity.
Defined.

Section NoKill.
Context {World : Type} `{os : OS World}.

(** C8: with force-kill disabled, when the wait time runs out with
    processes still tracked, the run reports failure and its only [kill]
    syscalls are those of the terminate phase, one terminate signal per
    selected process: the kill signal is never sent. *)
Theorem no_kill_timeout_fails opts ps (st : @St World) ps2 b st' :
  Options.kill opts = false ->
  wait_outcome opts ps st = Some (TimeUp ps2) ->
  real_run opts ps st = (b, st') ->
  b = false /\
  exists d, st_sys st' = st_sys st ++ d /\
    map kill_target (kills d) = map (fun p => (pid p, Options.terminate_signal opts)) ps.
Proof.
  intros Hk Hw Hr.
  apply real_run_trace in Hr as [rs1 [dw [h [kc (Hl & Hs & Hkd & _ & _ & Hm)]]]].
  rewrite Hw, Hk in Hm. destruct Hm as [_ [-> ->]].
  split; [reflexivity|].
  exists (kill_calls (Options.terminate_signal opts) ps rs1 ++ dw ++ []). split; [exact Hs|].
  rewrite !kills_app, Hkd. simpl. rewrite !app_nil_r.
  apply map_kill_target_calls. exact Hl.
Qed.
End NoKill.

(** Witness of C8: one process that never exits, [--no-kill]. *)
Lemma no_kill_timeout_fails_witness :
  exists b st', real_run TestOS.opts_no_kill [TestOS.p1] (TestOS.start TestOS.w_stubborn) = (b, st') /\
  b = false /\
  exists d, st_sys st' = st_sys (TestOS.start TestOS.w_stubborn) ++ d /\
    map kill_target (kills d) =
      map (fun p => (pid p, Options.terminate_signal TestOS.opts_no_kill)) [TestOS.p1].
Proof.
  destruct (real_run TestOS.opts_no_kill [TestOS.p1] (TestOS.start TestOS.w_stubborn))
    as [b st'] eqn:E.
  exists b, st'. split; [reflexivity|].
  apply (no_kill_timeout_fails TestOS.opts_no_kill [TestOS.p1] (TestOS.start TestOS.w_stubborn)
           [TestOS.p1] b st'); [reflexivity| |exact E].
  vm_compute. reflexivity.
Defined.

(** C9: the [kill] syscalls of a run are, in order, the terminate signal to
    each selected process in the order of the list, then the kill signal to
    an order-preserving sublist of it (the processes still tracked at the
    timeout, when force-kill is on); [all_processes] keeps the discovery
    order, so for processes foo, barfoo and baz and the pattern "foo" in
    basename mode the selection is foo, barfoo. *)
Theorem sends_in_discovery_order :
  (forall (World : Type) (os : OS World) opts ps (st : @St World) b st',
     real_run opts ps st = (b, st') ->
     exists d ps2, st_sys st' = st_sys st ++ d /\ sublist ps2 ps /\
       map kill_target (kills d) =
         map (fun p => (pid p, Options.terminate_signal opts)) ps ++
         map (fun p => (pid p, Options.kill_signal opts)) ps2) /\
  all_processes TestOS.opts_kill (mkMatcher [literal "foo"] Basename) TestOS.w_three =
    Ok [TestOS.proc_of 1 "foo"; TestOS.proc_of 2 "barfoo"].
Proof.
  split; [|vm_compute; reflexivity].
  intros World os opts ps st b st' Hr.
  apply real_run_trace in Hr as [rs1 [dw [h [kc (Hl & Hs & Hkd & _ & _ & Hm)]]]].
  destruct (wait_outcome opts ps st) as [[|ps2]|].
  - destruct Hm as [-> _].
    exists (kill_calls (Options.terminate_signal opts) ps rs1 ++ dw ++ []), [].
    split; [exact Hs|]. split; [apply sublist_nil_l|].
    rewrite !kills_app, Hkd, !map_app, map_kill_target_calls by exact Hl. simpl. now rewrite app_nil_r.
  - destruct Hm as [Hsub Hm]. destruct (Options.kill opts).
    + destruct Hm as [rs2 (Hl2 & -> & _)].
      exists (kill_calls (Options.terminate_signal opts) ps rs1 ++ dw ++
              kill_calls (Options.kill_signal opts) ps2 rs2), ps2.
      split; [exact Hs|]. split; [eapply sublist_trans; [exact Hsub|apply sublist_kept]|].
      rewrite !kills_app, Hkd, !map_app, !map_kill_target_calls by assumption. reflexivity.
    + destruct Hm as [-> _].
      exists (kill_calls (Options.terminate_signal opts) ps rs1 ++ dw ++ []), [].
      split; [exact Hs|]. split; [apply sublist_nil_l|].
      rewrite !kills_app, Hkd, !map_app, map_kill_target_calls by exact Hl. simpl. now rewrite app_nil_r.
  - destruct Hm as (-> & _ & -> & _).
    exists (kill_calls (Options.terminate_signal opts) ps rs1 ++ [] ++ []), [].
    split; [exact Hs|]. split; [apply sublist_nil_l|].
    rewrite !kills_app, !map_app, map_kill_target_calls by exact Hl. simpl. now rewrite app_nil_r.
Qed.

(** Witness of C9: one process that never exits, force-kill on. *)
Lemma sends_in_discovery_order_witness :
  exists b st', real_run TestOS.opts_kill [TestOS.p1] (TestOS.start TestOS.w_stubborn) = (b, st') /\
  exists d ps2, st_sys st' = st_sys (TestOS.start TestOS.w_stubborn) ++ d /\
    sublist ps2 [TestOS.p1] /\
    map kill_target (kills d) =
      map (fun p => (pid p, Options.terminate_signal TestOS.opts_kill)) [TestOS.p1] ++
      map (fun p => (pid p, Options.kill_signal TestOS.opts_kill)) ps2.
Proof.
  destruct (real_run TestOS.opts_kill [TestOS.p1] (TestOS.start TestOS.w_stubborn))
    as [b st'] eqn:E.
  exists b, st'. split; [reflexivity|].
  exact (proj1 sends_in_discovery_order TestOS.W TestOS.os TestOS.opts_kill [TestOS.p1]
           (TestOS.start TestOS.w_stubborn) b st' E).
Defined.

Section Tracked.
Context {World : Type} `{os : OS World}.

(** C10: the snapshots of the tracked set a run records (after the
    terminate phase, then after each poll of the waiting loop) form a
    chain that starts at the selected list and in which each snapshot is
    an order-preserving sublist of the one before it; so each of them is
    an order-preserving sublist of the selected list. *)
Theorem tracked_only_shrinks opts ps (st : @St World) b st' :
  real_run opts ps st = (b, st') ->
  exists h, st_tracked st' = st_tracked st ++ h /\ h <> [] /\
    shrinking (ps :: h) /\ (forall l, In l h -> sublist l ps).
Proof.
  intros Hr.
  apply real_run_trace in Hr as [rs1 [dw [h [kc (_ & _ & _ & Ht & Hsh & _)]]]].
  assert (Hs : shrinking (ps :: kept ps rs1 :: h)) by (split; [apply sublist_kept|exact Hsh]).
  exists (kept ps rs1 :: h). split; [exact Ht|]. split; [discriminate|]. split; [exact Hs|].
  apply shrinking_sublist_head. exact Hs.
Qed.
End Tracked.

(** Witness of C10: one process that never exits, force-kill on. *)
Lemma tracked_only_shrinks_witness :
  exists b st', real_run TestOS.opts_kill [TestOS.p1] (TestOS.start TestOS.w_stubborn) = (b, st') /\
  exists h, st_tracked st' = st_tracked (TestOS.start TestOS.w_stubborn) ++ h /\ h <> [] /\
    shrinking ([TestOS.p1] :: h) /\ (forall l, In l h -> sublist l [TestOS.p1]).
Proof.
  destruct (real_run TestOS.opts_kill [TestOS.p1] (TestOS.start TestOS.w_stubborn))
    as [b st'] eqn:E.
  exists b, st'. split; [reflexivity|].
  exact (tracked_only_shrinks TestOS.opts_kill [TestOS.p1] (TestOS.start TestOS.w_stubborn) b st' E).
Defined.

(* ------------------------------------------------------------------ *)
(** ** Signals, process entries, patterns, user filters and quiet runs *)

Lemma to_upper_digit c : is_ascii_digit (to_upper c) = is_ascii_digit c.
Proof. destruct c as [[] [] [] [] [] [] [] []]; reflexivity. Qed.

Lemma to_upper_digit_id c : is_ascii_digit c = true -> to_upper c = c.
Proof. destruct c as [[] [] [] [] [] [] [] []]; intros H; try reflexivity; discriminate. Qed.

Lemma to_upper_plus c : Ascii.eqb (to_upper c) "+"%char = Ascii.eqb c "+"%char.
Proof. destruct c as [[] [] [] [] [] [] [] []]; reflexivity. Qed.

Lemma to_upper_minus c : Ascii.eqb (to_upper c) "-"%char = Ascii.eqb c "-"%char.
Proof. destruct c as [[] [] [] [] [] [] [] []]; reflexivity. Qed.

Lemma to_upper_idem c : to_upper (to_upper c) = to_upper c.
Proof. destruct c as [[] [] [] [] [] [] [] []]; reflexivity. Qed.

Lemma make_ascii_uppercase_idem s :
  make_ascii_uppercase (make_ascii_uppercase s) = make_ascii_uppercase s.
Proof. induction s as [|c s IH]; simpl; [reflexivity|]. now rewrite to_upper_idem, IH. Qed.

Lemma parse_digits_upper s : forall neg acc,
  parse_digits neg acc (make_ascii_uppercase s) = parse_digits neg acc s.
Proof.
  induction s as [|c s IH]; intros neg acc; simpl; [reflexivity|].
  rewrite to_upper_digit.
  destruct (is_ascii_digit c) eqn:D; [|reflexivity].
  rewrite (to_upper_digit_id c D).
  destruct neg; [destruct (_ <? i32_min)%Z|destruct (i32_max <? _)%Z]; auto.
Qed.

Lemma parse_i32_upper s : parse_i32 (make_ascii_uppercase s) = parse_i32 s.
Proof.
  destruct s as [|c s]; [reflexivity|].
  change (make_ascii_uppercase (String c s)) with (String (to_upper c) (make_ascii_uppercase s)).
  unfold parse_i32. rewrite to_upper_plus, to_upper_minus.
  assert (Ee : String.eqb (make_ascii_uppercase s) EmptyString = String.eqb s EmptyString)
    by (destruct s; reflexivity).
  rewrite Ee, !parse_digits_upper.
  change (String (to_upper c) (make_ascii_uppercase s)) with (make_ascii_uppercase (String c s)).
  now rewrite parse_digits_upper.
Qed.

Lemma from_str_upper s : Sig.from_str (make_ascii_uppercase s) = Sig.from_str s.
Proof. unfold Sig.from_str. now rewrite make_ascii_uppercase_idem, parse_i32_upper. Qed.
Lemma digit_char_code d : (d < 10)%N -> ascii_code (digit_char d) = 48 + N.to_nat d.
Proof.
  intros H. unfold ascii_code, digit_char. apply Ascii.nat_ascii_embedding. lia.
Qed.

Lemma digit_char_digit d : (d < 10)%N -> is_ascii_digit (digit_char d) = true.
Proof.
  intros H. unfold is_ascii_digit. rewrite digit_char_code by exact H.
  apply andb_true_intro; split; apply Nat.leb_le; lia.
Qed.

Lemma digit_char_value d : (d < 10)%N -> Z.of_nat (ascii_code (digit_char d) - 48) = Z.of_N d.
Proof. intros H. rewrite digit_char_code by exact H. lia. Qed.

Lemma string_of_N_aux_head f : forall n acc c r,
  acc = String c r -> is_ascii_digit c = true ->
  exists c' r', string_of_N_aux f n acc = String c' r' /\ is_ascii_digit c' = true.
Proof.
  induction f as [|f IH]; intros n acc c r -> Hc; cbn [string_of_N_aux]; [eauto|].
  assert (Hd : is_ascii_digit (digit_char (n mod 10)) = true)
    by (apply digit_char_digit, N.mod_lt; discriminate).
  destruct (n <? 10)%N; [eauto|]. eapply IH; [reflexivity|exact Hd].
Qed.

Lemma string_of_N_aux_S_head f n acc :
  exists c r, string_of_N_aux (S f) n acc = String c r /\ is_ascii_digit c = true.
Proof.
  cbn [string_of_N_aux].
  assert (Hd : is_ascii_digit (digit_char (n mod 10)) = true)
    by (apply digit_char_digit, N.mod_lt; discriminate).
  destruct (n <? 10)%N; [eauto|]. eapply string_of_N_aux_head; [reflexivity|exact Hd].
Qed.

Lemma string_of_N_head n :
  exists c r, string_of_N n = String c r /\ is_ascii_digit c = true.
Proof. apply (string_of_N_aux_S_head 19). Qed.

Lemma parse_digits_string_of_N_aux f : forall (neg : bool) (n : N) acc,
  (n < 10 ^ N.of_nat f)%N ->
  (if neg then (i32_min <= - Z.of_N n)%Z else (Z.of_N n <= i32_max)%Z) ->
  parse_digits neg 0 (string_of_N_aux f n acc)
  = parse_digits neg (if neg then - Z.of_N n else Z.of_N n)%Z acc.
Proof.
  induction f as [|f IH]; intros neg n acc Hf Hr.
  - simpl in Hf. assert (n = 0%N) by lia. subst. destruct neg; reflexivity.
  - cbn [string_of_N_aux].
    assert (Hm : (n mod 10 < 10)%N) by (apply N.mod_lt; discriminate).
    pose proof (N.div_mod n 10 ltac:(discriminate)) as Hdm.
    destruct (n <? 10)%N eqn:Hlt.
    + apply N.ltb_lt in Hlt. rewrite N.mod_small in * by exact Hlt.
      cbn [parse_digits]. rewrite digit_char_digit by exact Hlt. rewrite digit_char_value by exact Hlt.
      destruct neg.
      * destruct (0 * 10 - Z.of_N n <? i32_min)%Z eqn:E; [apply Z.ltb_lt in E; lia|].
        f_equal; lia.
      * destruct (i32_max <? 0 * 10 + Z.of_N n)%Z eqn:E; [apply Z.ltb_lt in E; lia|].
        f_equal; lia.
    + apply N.ltb_ge in Hlt.
      rewrite IH.
      * cbn [parse_digits]. rewrite digit_char_digit by exact Hm. rewrite digit_char_value by exact Hm.
        destruct neg.
        -- destruct (- Z.of_N (n / 10) * 10 - Z.of_N (n mod 10) <? i32_min)%Z eqn:E;
             [apply Z.ltb_lt in E; lia|]. f_equal; lia.
        -- destruct (i32_max <? Z.of_N (n / 10) * 10 + Z.of_N (n mod 10))%Z eqn:E;
             [apply Z.ltb_lt in E; lia|]. f_equal; lia.
      * rewrite Nat2N.inj_succ, N.pow_succ_r' in Hf.
        apply N.Div0.div_lt_upper_bound; lia.
      * destruct neg; pose proof (N.Div0.div_le_upper_bound n 10 n ltac:(lia)); lia.
Qed.

Lemma parse_i32_string_of_Z_aux z :
  (i32_min <= z <= i32_max)%Z -> parse_i32 (string_of_Z z) = Ok z.
Proof.
  intros Hz. unfold i32_min, i32_max in Hz.
  assert (Hbig : forall n : N, (Z.of_N n <= 2147483648)%Z -> (n < 10 ^ N.of_nat 20)%N)
    by (intros n Hn; change (10 ^ N.of_nat 20)%N with 100000000000000000000%N; lia).
  unfold string_of_Z. destruct (z <? 0)%Z eqn:Hneg.
  - apply Z.ltb_lt in Hneg.
    destruct (string_of_N_head (Z.to_N (- z))) as [c [r [Hs Hc]]].
    change (String.append "-" (string_of_N (Z.to_N (- z))))
      with (String "-"%char (string_of_N (Z.to_N (- z)))).
    unfold parse_i32. rewrite Hs.
    change (Ascii.eqb "-"%char "+"%char) with false.
    change (Ascii.eqb "-"%char "-"%char) with true.
    change (String.eqb (String c r) EmptyString) with false. cbv iota.
    rewrite <- Hs. unfold string_of_N.
    rewrite (parse_digits_string_of_N_aux 20 true) by (unfold i32_min; try apply Hbig; lia).
    simpl. f_equal. lia.
  - apply Z.ltb_ge in Hneg.
    destruct (string_of_N_head (Z.to_N z)) as [c [r [Hs Hc]]].
    assert (Hp : Ascii.eqb c "+"%char = false)
      by (destruct (Ascii.eqb c "+"%char) eqn:E; [apply Ascii.eqb_eq in E; subst; discriminate|reflexivity]).
    assert (Hm : Ascii.eqb c "-"%char = false)
      by (destruct (Ascii.eqb c "-"%char) eqn:E; [apply Ascii.eqb_eq in E; subst; discriminate|reflexivity]).
    unfold parse_i32. rewrite Hs, Hp, Hm. rewrite <- Hs. unfold string_of_N.
    rewrite (parse_digits_string_of_N_aux 20 false) by (unfold i32_max; try apply Hbig; lia).
    simpl. f_equal. lia.
Qed.

Lemma signal_parse_back s :
  Sig.from_str (Sig.basename s) = Ok s /\ Sig.from_str (Sig.name s) = Ok s /\
  Sig.from_str (string_of_Z (Sig.number s)) = Ok s.
Proof. destruct s; vm_compute; repeat split. Qed.

Lemma find_number z s :
  find (fun signal => Z.eqb (Sig.number signal) z) Sig.iterator = Some s <-> Sig.number s = z.
Proof.
  split.
  - intros H. apply find_some in H as [_ H]. now apply Z.eqb_eq.
  - intros <-. destruct s; vm_compute; reflexivity.
Qed.

Lemma basename_head s :
  exists b r, Sig.basename s = String b r /\
    (Nat.leb 65 (ascii_code b) && Nat.leb (ascii_code b) 90) = true.
Proof. destruct s; do 2 eexists; split; reflexivity. Qed.

Lemma digit_not_letter c :
  is_ascii_digit c || Ascii.eqb c "-"%char = true ->
  (Nat.leb 65 (ascii_code c) && Nat.leb (ascii_code c) 90) = false /\ to_upper c = c.
Proof. destruct c as [[] [] [] [] [] [] [] []]; intros H; try discriminate; split; reflexivity. Qed.

Lemma string_of_Z_head z :
  exists c r, string_of_Z z = String c r /\ is_ascii_digit c || Ascii.eqb c "-"%char = true.
Proof.
  unfold string_of_Z. destruct (z <? 0)%Z.
  - exists "-"%char, (string_of_N (Z.to_N (- z))). split; reflexivity.
  - destruct (string_of_N_head (Z.to_N z)) as [c [r [-> Hc]]].
    exists c, r. split; [reflexivity|]. now rewrite Hc.
Qed.

Lemma signal_text_not_number z s :
  String.eqb (Sig.basename s) (make_ascii_uppercase (string_of_Z z)) = false /\
  String.eqb (Sig.name s) (make_ascii_uppercase (string_of_Z z)) = false.
Proof.
  destruct (string_of_Z_head z) as [c [r [-> Hc]]].
  destruct (digit_not_letter c Hc) as [Hl Hu].
  cbn [make_ascii_uppercase]. rewrite Hu.
  destruct (basename_head s) as [b [r' [Hb Hbl]]].
  split; apply String.eqb_neq; intros E.
  - rewrite Hb in E. injection E as -> _. congruence.
  - unfold Sig.name in E. simpl in E. injection E as <- _.
    vm_compute in Hc. discriminate.
Qed.

Lemma parse_digits_range s : forall a v,
  (0 <= a <= i32_max)%Z -> parse_digits false a s = Ok v -> (0 <= v <= i32_max)%Z.
Proof.
  induction s as [|c s IH]; intros a v Ha H; simpl in H.
  - injection H as <-. exact Ha.
  - destruct (is_ascii_digit c); [|discriminate].
    destruct (i32_max <? a * 10 + Z.of_nat (ascii_code c - 48))%Z eqn:E; [discriminate|].
    apply Z.ltb_ge in E. eapply IH; [|exact H]. split; [lia|exact E].
Qed.

Lemma numeric_parse_range s v :
  forallb is_ascii_digit (list_ascii_of_string s) = true -> parse_i32 s = Ok v ->
  (0 <= v <= i32_max)%Z.
Proof.
  destruct s as [|c r]; [discriminate|]. intros Hd H. simpl in Hd.
  apply andb_prop in Hd as [Hc _].
  assert (Hp : Ascii.eqb c "+"%char = false)
    by (destruct (Ascii.eqb c "+"%char) eqn:E; [apply Ascii.eqb_eq in E; subst; discriminate|reflexivity]).
  assert (Hm : Ascii.eqb c "-"%char = false)
    by (destruct (Ascii.eqb c "-"%char) eqn:E; [apply Ascii.eqb_eq in E; subst; discriminate|reflexivity]).
  unfold parse_i32 in H. rewrite Hp, Hm in H.
  apply (parse_digits_range (String c r) 0 v); [unfold i32_max; lia|exact H].
Qed.

Lemma from_entry_ok e p :
  from_entry e = Ok p ->
  parse_i32 (de_file_name e) = Ok (pid p) /\ de_st_uid e = Ok (user_id p) /\
  exists raw, de_cmdline e = Ok raw /\ cmdline p = parse_cmdline raw.
Proof.
  unfold from_entry. destruct (parse_i32 (de_file_name e)) as [z|k]; cbn [map_err]; [|discriminate].
  destruct (de_exe e) as [exe|m]; cbn [map_err]; [|discriminate].
  destruct (de_cmdline e) as [raw|[m|m]]; cbn [read_file]; try discriminate.
  destruct (de_st_uid e) as [u|m]; cbn [uid_of_file map_err]; [|discriminate].
  intros H; injection H as <-. simpl. eauto.
Qed.

Lemma in_candidates e es : In e (candidates es) -> In (Ok e) es /\ is_dir e && has_numeric_name e = true.
Proof.
  unfold candidates. intros H. apply in_flat_map in H as [[e'|m] [Hin He]]; [|destruct He].
  destruct (is_dir e' && has_numeric_name e') eqn:C; [|destruct He].
  destruct He as [<-|[]]. auto.
Qed.

Lemma find_char_substring c s : forall i,
  find_char c s = Some i -> find_char c (substring 0 i s) = None.
Proof.
  induction s as [|a s IH]; intros i H; simpl in H; [discriminate|].
  destruct (Ascii.eqb a c) eqn:E.
  - injection H as <-. reflexivity.
  - destruct (find_char c s) as [j|] eqn:F; simpl in H; [|discriminate].
    injection H as <-. simpl. rewrite E, (IH j eq_refl). reflexivity.
Qed.

Lemma find_char_trim_start c s : find_char c s = None -> find_char c (trim_start s) = None.
Proof.
  induction s as [|a s IH]; simpl; [auto|].
  intros H. destruct (is_whitespace a); [|exact H].
  apply IH. destruct (Ascii.eqb a c); [discriminate|].
  destruct (find_char c s); [discriminate|reflexivity].
Qed.

Lemma find_char_trim_end c s : find_char c s = None -> find_char c (trim_end s) = None.
Proof.
  induction s as [|a s IH]; simpl; [auto|].
  intros H. destruct (Ascii.eqb a c) eqn:E; [discriminate|].
  assert (Hs : find_char c s = None) by (destruct (find_char c s); [discriminate|reflexivity]).
  specialize (IH Hs).
  destruct (trim_end s) as [|a' r] eqn:T.
  - destruct (is_whitespace a); simpl; [reflexivity|now rewrite E].
  - simpl. rewrite E. simpl in IH. now rewrite IH.
Qed.

Lemma strip_comment_no_hash line : find_char HASH (strip_comment line) = None.
Proof.
  unfold strip_comment. destruct (find_char HASH line) as [i|] eqn:F; [|exact F].
  unfold trim. apply find_char_trim_end, find_char_trim_start, find_char_substring, F.
Qed.

Lemma strip_comment_hash_free line : find_char HASH line = None -> strip_comment line = line.
Proof. unfold strip_comment. intros ->. reflexivity. Qed.

Lemma map_while_ok_app_err {A E} (l1 l2 : list (res A E)) e :
  map_while_ok (l1 ++ Err e :: l2) = map_while_ok l1.
Proof. induction l1 as [|[a|m] l1 IH]; simpl; congruence. Qed.

Lemma filter_comm {A} (f g : A -> bool) l : filter f (filter g l) = filter g (filter f l).
Proof.
  induction l as [|x l IH]; simpl; [reflexivity|].
  destruct (g x) eqn:G, (f x) eqn:F; simpl; rewrite ?G, ?F; congruence.
Qed.

Lemma err_list_user_filter u items :
  flat_map err_list (user_filter u items) = flat_map err_list items.
Proof.
  induction items as [|[p|m] items IH]; simpl; [reflexivity| |congruence].
  destruct (user_id p =? u)%N; simpl; exact IH.
Qed.


(** [strip_comment] leaves no [#] in a line, and stripping a stripped line changes nothing. *)
Theorem strip_comment_spec line :
  find_char HASH (strip_comment line) = None /\
  strip_comment (strip_comment line) = strip_comment line.
Proof.
  split; [apply strip_comment_no_hash|].
  apply strip_comment_hash_free, strip_comment_no_hash.
Qed.

(** [load_patterns] keeps no empty pattern and no pattern with a [#]; a
    line that fails to read ends the pattern list there. *)
Theorem pattern_lines_spec lines :
  (forall pat, In pat (pattern_lines lines) -> pat <> EmptyString /\ find_char HASH pat = None) /\
  (forall l1 e l2, pattern_lines (l1 ++ Err e :: l2) = pattern_lines l1).
Proof.
  split.
  - intros pat H. unfold pattern_lines in H. apply filter_In in H as [H Hne].
    apply in_map_iff in H as [l [<- _]]. split.
    + intros E. rewrite E in Hne. discriminate.
    + apply strip_comment_no_hash.
  - intros l1 e l2. unfold pattern_lines. now rewrite map_while_ok_app_err.
Qed.

(** [ColorMode::from_str] accepts exactly the texts of [ColorMode::variants]. *)
Theorem color_mode_from_str_variants s :
  (exists c, color_mode_from_str s = Ok c) <-> In s color_mode_variants.
Proof.
  unfold color_mode_from_str, color_mode_variants; simpl.
  destruct (String.eqb s "auto") eqn:A; [apply String.eqb_eq in A; subst; split; eauto|].
  destruct (String.eqb s "always") eqn:B; [apply String.eqb_eq in B; subst; split; eauto|].
  destruct (String.eqb s "never") eqn:C; [apply String.eqb_eq in C; subst; split; eauto|].
  apply String.eqb_neq in A, B, C.
  split; [intros [c H]; discriminate|].
  intros [E|[E|[E|[]]]]; symmetry in E; contradiction.
Qed.

(** [UserFilter] yields the processes of the given owner and every error
    of the underlying iterator, in order. *)
Theorem user_filter_items u items :
  flat_map ok_list (user_filter u items)
    = filter (fun p => (user_id p =? u)%N) (flat_map ok_list items) /\
  flat_map err_list (user_filter u items) = flat_map err_list items.
Proof. split; [apply ok_list_user_filter|apply err_list_user_filter]. Qed.

Section Modes.
Context {World : Type} `{os : OS World}.

(** With [--mine] or [--user], the process list is the list of all
    processes (same matcher) restricted to the selected owner. *)
Theorem all_processes_user_modes (opts opts_all : Options.t) (m : Matcher) (w : World) :
  Options.user_mode opts_all = Everybody ->
  (Options.user_mode opts = OnlyMe ->
   all_processes opts m w =
     match all_processes opts_all m w with
     | Ok ps => Ok (filter (fun p => (user_id p =? os_current_uid w)%N) ps)
     | Err e => Err e
     end) /\
  (forall n u, Options.user_mode opts = Only n -> os_user_uid_by_name w n = Some u ->
   all_processes opts m w =
     match all_processes opts_all m w with
     | Ok ps => Ok (filter (fun p => (user_id p =? u)%N) ps)
     | Err e => Err e
     end).
Proof.
  intros Hall.
  unfold all_processes, process_all, process_all_from_user, find_user_by_name.
  rewrite Hall. split.
  - intros Hme. rewrite Hme.
    destruct (os_read_proc w) as [es|e]; [|reflexivity].
    now rewrite ok_list_user_filter, filter_comm.
  - intros n u Hn Hu. rewrite Hn, Hu.
    destruct (os_read_proc w) as [es|e]; [|reflexivity].
    now rewrite ok_list_user_filter, filter_comm.
Qed.

End Modes.

Section QuietProofs.
Context {World : Type} `{os : OS World}.

Lemma qt_intro (st st' : @St World) d o :
  st_sys st' = st_sys st ++ d -> st_out st' = st_out st ++ o ->
  map fail_target o = map (fun k => Some (kill_target k)) (rejected d) ->
  quiet_trace st st'.
Proof. intros; exists d, o; auto. Qed.

Lemma qt_refl (st : @St World) : quiet_trace st st.
Proof. apply (qt_intro st st [] []); rewrite ?app_nil_r; reflexivity. Qed.

Lemma qt_same (st st' : @St World) :
  st_sys st' = st_sys st -> st_out st' = st_out st -> quiet_trace st st'.
Proof. intros Hs Ho. apply (qt_intro st st' [] []); rewrite ?app_nil_r; auto. Qed.

Lemma rejected_app d1 d2 : rejected (d1 ++ d2) = rejected d1 ++ rejected d2.
Proof. unfold rejected. now rewrite kills_app, filter_app. Qed.

Lemma qt_trans (st1 st2 st3 : @St World) :
  quiet_trace st1 st2 -> quiet_trace st2 st3 -> quiet_trace st1 st3.
Proof.
  intros [d1 [o1 (Hs1 & Ho1 & Hm1)]] [d2 [o2 (Hs2 & Ho2 & Hm2)]].
  apply (qt_intro st1 st3 (d1 ++ d2) (o1 ++ o2)).
  - now rewrite Hs2, Hs1, app_assoc.
  - now rewrite Ho2, Ho1, app_assoc.
  - now rewrite rejected_app, !map_app, Hm1, Hm2.
Qed.

Lemma send_with_error_handling_qt sig p (st : @St World) :
  quiet_trace st (snd (send_with_error_handling sig p st)).
Proof.
  unfold send_with_error_handling, bind, send.
  destruct (os_kill (st_world st) (pid p) sig) as [r w'] eqn:E.
  destruct r as [u|e]; [|destruct e]; simpl.
  - apply (qt_intro _ _ [SysKill (pid p) sig (Ok u)] []); simpl; rewrite ?app_nil_r; reflexivity.
  - apply (qt_intro _ _ [SysKill (pid p) sig (Err EINVAL)] [FailedToSend sig p InvalidSignal]);
      reflexivity.
  - apply (qt_intro _ _ [SysKill (pid p) sig (Err EPERM)] [FailedToSend sig p NoPermission]);
      reflexivity.
  - apply (qt_intro _ _ [SysKill (pid p) sig (Err ESRCH)] []); simpl; rewrite ?app_nil_r; reflexivity.
  - apply (qt_intro _ _ [SysKill (pid p) sig (Err (EOTHER errname desc))]
             [FailedToSend sig p (kill_error_of_errno (EOTHER errname desc))]); reflexivity.
Qed.

Lemma retain_with_qt {A S} (f : S -> A -> M (bool * S)) :
  (forall s x (st : @St World), quiet_trace st (snd (f s x st))) ->
  forall l s (st : @St World), quiet_trace st (snd (retain_with f s l st)).
Proof.
  intros Hf l. induction l as [|x l IH]; intros s st; simpl; [apply qt_refl|].
  unfold bind.
  specialize (Hf s x st). destruct (f s x st) as [[k s'] st1]. simpl in Hf.
  specialize (IH s' st1). destruct (retain_with f s' l st1) as [[ys s''] st2]. simpl in IH.
  unfold ret; simpl. eapply qt_trans; eassumption.
Qed.

Variable opts : Options.t.
Hypothesis Hq : Options.output_mode opts = Quiet.

Lemma terminate_step_qt s p (st : @St World) : quiet_trace st (snd (terminate_step opts s p st)).
Proof.
  unfold terminate_step, bind, verbose_signal_message, when. rewrite Hq. simpl. unfold ret.
  pose proof (send_with_error_handling_qt (Options.terminate_signal opts) p st) as H.
  destruct (send_with_error_handling (Options.terminate_signal opts) p st) as [ok st1].
  destruct ok; exact H.
Qed.

Lemma poll_step_qt u p (st : @St World) : quiet_trace st (snd (poll_step opts u p st)).
Proof.
  unfold poll_step, bind, is_alive, when. rewrite Hq. unfold ret; simpl.
  apply (qt_intro _ _ [SysExists (proc_path p) (os_path_exists (st_world st) (proc_path p))] []);
    simpl; rewrite ?app_nil_r; reflexivity.
Qed.

Lemma wait_loop_qt wait start fuel : forall ps (st : @St World),
  quiet_trace st (snd (wait_loop opts wait start fuel ps st)).
Proof.
  induction fuel as [|f IH]; intros ps st; simpl; [apply qt_refl|].
  unfold bind, clock, sleep.
  destruct (os_now (st_world st) - start <? wait)%N; [|apply qt_refl].
  set (st1 := mkSt (os_sleep (st_world st) poll_interval) (st_sys st ++ [SysSleep poll_interval])
                   (st_out st) (st_tracked st)).
  assert (H1 : quiet_trace st st1)
    by (apply (qt_intro _ _ [SysSleep poll_interval] []); simpl; rewrite ?app_nil_r; reflexivity).
  pose proof (retain_with_qt (poll_step opts) poll_step_qt ps tt st1) as H2.
  destruct (retain_with (poll_step opts) tt ps st1) as [[ps' u] st2]. simpl in H2.
  unfold record_tracked. simpl.
  set (st3 := mkSt (st_world st2) (st_sys st2) (st_out st2) (st_tracked st2 ++ [ps'])).
  assert (H3 : quiet_trace st2 st3) by (apply qt_same; reflexivity).
  destruct ps' as [|q qs].
  - unfold ret; simpl. eapply qt_trans; [exact H1|]. eapply qt_trans; [exact H2|exact H3].
  - eapply qt_trans; [exact H1|]. eapply qt_trans; [exact H2|].
    eapply qt_trans; [exact H3|]. apply IH.
Qed.

Lemma kill_each_qt ps : forall s (st : @St World), quiet_trace st (snd (kill_each opts ps s st)).
Proof.
  induction ps as [|p ps IH]; intros s st; simpl; [apply qt_refl|].
  unfold bind, verbose_signal_message, when. rewrite Hq. simpl. unfold ret.
  pose proof (send_with_error_handling_qt (Options.kill_signal opts) p st) as H.
  destruct (send_with_error_handling (Options.kill_signal opts) p st) as [ok st1].
  eapply qt_trans; [exact H|apply IH].
Qed.

Lemma real_run_qt ps (st : @St World) : quiet_trace st (snd (real_run opts ps st)).
Proof.
  unfold real_run, terminate_phase, bind.
  pose proof (retain_with_qt (terminate_step opts) terminate_step_qt ps true st) as H1.
  destruct (retain_with (terminate_step opts) true ps st) as [[ps1 s1] st1]. simpl in H1.
  unfold record_tracked. cbn -[wait_fuel].
  set (st2 := mkSt (st_world st1) (st_sys st1) (st_out st1) (st_tracked st1 ++ [ps1])).
  assert (H2 : quiet_trace st1 st2) by (apply qt_same; reflexivity).
  eapply qt_trans; [exact H1|]. eapply qt_trans; [exact H2|].
  destruct (Options.wait_time opts) as [w|]; [|apply qt_refl].
  unfold clock. set (fu := wait_fuel w). clearbody fu. cbn -[wait_loop].
  pose proof (wait_loop_qt w (os_now (st_world st1)) fu ps1 st2) as H3.
  destruct (wait_loop opts w (os_now (st_world st1)) fu ps1 st2) as [ex st3].
  simpl in H3. eapply qt_trans; [exact H3|].
  destruct ex as [|ps2]; [apply qt_refl|].
  unfold when. rewrite Hq. simpl. unfold ret.
  destruct (Options.kill opts); [apply kill_each_qt|apply qt_refl].
Qed.
End QuietProofs.

(** Quiet mode: whatever a run does, the only messages it prints are the
    "failed to send" errors, one for each rejected signal, in order. *)
Theorem quiet_run_reports_only_failures {World} `{OS World} opts ps (st : @St World) b st' :
  Options.output_mode opts = Quiet ->
  real_run opts ps st = (b, st') ->
  exists d o,
    st_sys st' = st_sys st ++ d /\ st_out st' = st_out st ++ o /\
    map fail_target o = map (fun k => Some (kill_target k)) (rejected d).
Proof.
  intros Hq E. pose proof (real_run_qt opts Hq ps st) as Ht.
  rewrite E in Ht. exact Ht.
Qed.

(** Without a wait time, a run sends the terminate signal once to each
    selected process and stops: no sleep, no liveness check, no kill
    signal; it succeeds exactly when every send succeeded. *)
Theorem real_run_without_wait {World} `{OS World} opts ps (st : @St World) b st' :
  Options.wait_time opts = None ->
  real_run opts ps st = (b, st') ->
  exists rs, length rs = length ps /\
    st_sys st' = st_sys st ++ kill_calls (Options.terminate_signal opts) ps rs /\
    st_tracked st' = st_tracked st ++ [kept ps rs] /\
    b = forallb send_ok rs.
Proof.
  intros Hw E.
  assert (Hn : wait_outcome opts ps st = None).
  { unfold wait_outcome. destruct (terminate_phase opts ps st) as [r st1].
    destruct (record_tracked (fst r) st1). now rewrite Hw. }
  apply real_run_trace in E as [rs [dw [h [kc (Hl & Hs & _ & Ht & _ & Hm)]]]].
  rewrite Hn in Hm. destruct Hm as (-> & -> & -> & ->).
  exists rs. rewrite Hs, Ht, !app_nil_r. auto.
Qed.

Lemma find_ext_in {A} (f g : A -> bool) l :
  (forall x, In x l -> f x = g x) -> find f l = find g l.
Proof.
  induction l as [|x l IH]; intros H; simpl; [reflexivity|].
  rewrite (H x (or_introl eq_refl)). destruct (g x); [reflexivity|].
  apply IH. intros y Hy. apply H. now right.
Qed.

(** Every signal is parsed back from its short name, its [SIG] name and its number. *)
Theorem signal_from_str_roundtrip s :
  Sig.from_str (Sig.basename s) = Ok s /\ Sig.from_str (Sig.name s) = Ok s /\
  Sig.from_str (string_of_Z (Sig.number s)) = Ok s.
Proof. exact (signal_parse_back s). Qed.

(** Signal names are case-insensitive: two texts with the same ASCII upper case parse alike. *)
Theorem signal_from_str_case_insensitive s t :
  make_ascii_uppercase s = make_ascii_uppercase t -> Sig.from_str s = Sig.from_str t.
Proof. intros H. now rewrite <- from_str_upper, H, from_str_upper. Qed.

(** The decimal text of an [i32] parses to the signal of that number, and
    to an error when no signal has it. *)
Theorem signal_from_str_number z s :
  (i32_min <= z <= i32_max)%Z ->
  (Sig.from_str (string_of_Z z) = Ok s <-> Sig.number s = z).
Proof.
  intros Hz. unfold Sig.from_str. rewrite parse_i32_string_of_Z_aux by exact Hz.
  rewrite (find_ext_in _ (fun signal => Z.eqb (Sig.number signal) z)).
  - rewrite <- find_number.
    destruct (find (fun signal => Z.eqb (Sig.number signal) z) Sig.iterator) as [t|];
      split; intros H; congruence.
  - intros x _. destruct (signal_text_not_number z x) as [A B]. now rewrite A, B.
Qed.

(** Piped output of [--list-signals]: one line per signal, number, tab
    and short name, no two alike; the number and the name on each line
    both parse back to that signal. *)
Theorem list_signals_lines :
  (forall l, In l (list_signals false) <->
     exists s, l = String.append (string_of_Z (Sig.number s)) (String TAB (Sig.basename s))) /\
  NoDup (list_signals false) /\
  forall s, Sig.from_str (string_of_Z (Sig.number s)) = Ok s /\ Sig.from_str (Sig.basename s) = Ok s.
Proof.
  split; [|split].
  - intros l. unfold list_signals. rewrite app_nil_l, app_nil_r, in_map_iff.
    split.
    + intros [s [<- _]]. now exists s.
    + intros [s ->]. exists s. split; [reflexivity|]. destruct s; simpl; tauto.
  - vm_compute. repeat constructor; simpl; intuition discriminate.
  - intros s. destruct (signal_parse_back s) as (A & _ & C). auto.
Qed.

(** A directory entry whose name is the decimal text of a PID loads as a
    process of that PID, and [is_alive] checks the very directory it came from. *)
Theorem from_entry_is_alive_path e p z :
  (i32_min <= z <= i32_max)%Z -> de_file_name e = string_of_Z z ->
  from_entry e = Ok p -> pid p = z /\ proc_path p = entry_path e.
Proof.
  intros Hz Hn H. apply from_entry_ok in H as [Hp _].
  rewrite Hn, parse_i32_string_of_Z_aux in Hp by exact Hz. injection Hp as Hpz.
  split; [easy|]. unfold proc_path, entry_path. now rewrite Hn, Hpz.
Qed.

(** Each process [ProcessIterator] yields comes from a loaded numeric
    directory of its PID and owner; its PID is a non-negative [i32] and its
    command line has no NUL and no trailing whitespace. *)
Theorem process_iterator_items es p :
  In (Ok p) (process_iterator es) ->
  (0 <= pid p <= i32_max)%Z /\ no_nul (cmdline p) = true /\
  match last_char (cmdline p) with Some c => is_whitespace c = false | None => True end /\
  exists e, In (Ok e) es /\ is_dir e = true /\
    parse_i32 (de_file_name e) = Ok (pid p) /\ de_st_uid e = Ok (user_id p).
Proof.
  rewrite process_iterator_candidates, in_map_iff. intros [e [He Hin]].
  apply in_candidates in Hin as [Hin Hc]. apply andb_prop in Hc as [Hd Hnum].
  apply from_entry_ok in He as (Hp & Hu & raw & _ & Hc).
  split; [|split; [|split]].
  - exact (numeric_parse_range _ _ Hnum Hp).
  - rewrite Hc. apply trim_end_no_nul, replace_nul_no_nul.
  - rewrite Hc. apply trim_end_last.
  - exists e. auto.
Qed.

Lemma all_processes_user_modes_witness :
  Options.user_mode TestOS.opts_kill = Everybody /\
  all_processes (Options.mk false true SIGKILL Basename Normal SIGTERM OnlyMe TestOS.wait_300ms)
    (mkMatcher [literal "foo"] Basename) TestOS.w_three =
  match all_processes TestOS.opts_kill (mkMatcher [literal "foo"] Basename) TestOS.w_three with
  | Ok ps => Ok (filter (fun p => (user_id p =? os_current_uid TestOS.w_three)%N) ps)
  | Err e => Err e
  end.
Proof.
  split; [reflexivity|].
  apply (proj1 (all_processes_user_modes
                  (Options.mk false true SIGKILL Basename Normal SIGTERM OnlyMe TestOS.wait_300ms)
                  TestOS.opts_kill (mkMatcher [literal "foo"] Basename) TestOS.w_three eq_refl)).
  reflexivity.
Defined.

Lemma signal_from_str_case_insensitive_witness :
  make_ascii_uppercase "kiLL" = make_ascii_uppercase "KiLl" /\
  Sig.from_str "kiLL" = Sig.from_str "KiLl".
Proof.
  assert (H : make_ascii_uppercase "kiLL" = make_ascii_uppercase "KiLl") by (vm_compute; reflexivity).
  exact (conj H (signal_from_str_case_insensitive "kiLL" "KiLl" H)).
Defined.

Lemma signal_from_str_number_witness :
  (i32_min <= 9 <= i32_max)%Z /\
  (Sig.from_str (string_of_Z 9) = Ok SIGKILL <-> Sig.number SIGKILL = 9%Z).
Proof.
  assert (H : (i32_min <= 9 <= i32_max)%Z) by (unfold i32_min, i32_max; lia).
  exact (conj H (signal_from_str_number 9 SIGKILL H)).
Defined.

Lemma from_entry_is_alive_path_witness :
  let e := mkDirEntry "42" (Ok true) (Ok "/usr/bin/foo") (Ok "foo") (Ok 1000%N) in
  let p := mkProcess 42 1000 "foo" "foo" in
  (i32_min <= 42 <= i32_max)%Z /\ de_file_name e = string_of_Z 42 /\ from_entry e = Ok p /\
  pid p = 42%Z /\ proc_path p = entry_path e.
Proof.
  intros e p.
  assert (H1 : (i32_min <= 42 <= i32_max)%Z) by (unfold i32_min, i32_max; lia).
  assert (H2 : de_file_name e = string_of_Z 42) by (vm_compute; reflexivity).
  assert (H3 : from_entry e = Ok p) by (vm_compute; reflexivity).
  exact (conj H1 (conj H2 (conj H3 (from_entry_is_alive_path e p 42 H1 H2 H3)))).
Defined.

Lemma process_iterator_items_witness :
  In (Ok (TestOS.proc_of 1 "foo")) (process_iterator [TestOS.entry 1 "/usr/bin/foo" "foo"]) /\
  (0 <= pid (TestOS.proc_of 1 "foo") <= i32_max)%Z /\
  no_nul (cmdline (TestOS.proc_of 1 "foo")) = true /\
  match last_char (cmdline (TestOS.proc_of 1 "foo")) with
  | Some c => is_whitespace c = false | None => True end /\
  exists e, In (Ok e) [TestOS.entry 1 "/usr/bin/foo" "foo"] /\ is_dir e = true /\
    parse_i32 (de_file_name e) = Ok (pid (TestOS.proc_of 1 "foo")) /\
    de_st_uid e = Ok (user_id (TestOS.proc_of 1 "foo")).
Proof.
  assert (H : In (Ok (TestOS.proc_of 1 "foo")) (process_iterator [TestOS.entry 1 "/usr/bin/foo" "foo"]))
    by (vm_compute; left; reflexivity).
  exact (conj H (process_iterator_items _ _ H)).
Defined.

Lemma quiet_run_reports_only_failures_witness :
  let r := real_run TestOS.opts_quiet [TestOS.p1] (TestOS.start TestOS.w_denied) in
  Options.output_mode TestOS.opts_quiet = Quiet /\
  exists d o,
    st_sys (snd r) = st_sys (TestOS.start TestOS.w_denied) ++ d /\
    st_out (snd r) = st_out (TestOS.start TestOS.w_denied) ++ o /\
    map fail_target o = map (fun k => Some (kill_target k)) (rejected d).
Proof.
  intros r. split; [reflexivity|].
  apply (quiet_run_reports_only_failures TestOS.opts_quiet [TestOS.p1] (TestOS.start TestOS.w_denied)
           (fst r) (snd r) eq_refl).
  apply surjective_pairing.
Defined.

Lemma real_run_without_wait_witness :
  let r := real_run TestOS.opts_no_wait [TestOS.p1] (TestOS.start TestOS.w_stubborn) in
  Options.wait_time TestOS.opts_no_wait = None /\
  exists rs, length rs = 1 /\
    st_sys (snd r) = [] ++ kill_calls SIGTERM [TestOS.p1] rs /\
    st_tracked (snd r) = [] ++ [kept [TestOS.p1] rs] /\
    fst r = forallb send_ok rs.
Proof.
  intros r. split; [reflexivity|].
  apply (real_run_without_wait TestOS.opts_no_wait [TestOS.p1] (TestOS.start TestOS.w_stubborn)
           (fst r) (snd r) eq_refl).
  apply surjective_pairing.
Defined.
